(** * Mind-map layout core: coordinate converter, text measurer, overlap resolver

  Shallow embedding of
  - [src/utils/coordinate-system.ts]  (class [CoordinateConverter]),
  - [src/utils/TextMeasurer.ts]       (class [TextMeasurer]),
  - [constants/mindmap-constants.ts]  ([getFontSizeByDepth]).

  Two parts of the repository have no source file here and are modelled
  from the specification: [cleanTextContent] (utils/mindmap-utils.ts) and
  the overlap resolver of section 4.4.

  JavaScript numbers are modelled by exact rationals [Q]: every finite
  double is a rational, and the arithmetic of the source ([+], [-], [*],
  [/ 2], [Math.max], [Math.ceil], [<=]) is taken without rounding error.
  Equality of numbers is therefore [Qeq] ([==]).  Where the exact value of
  a product is a whole number, the double computed by the source can lie
  just above it, and [Math.ceil] or [Math.floor] then answers one more or
  one less than here: [5 * (18 * 1.3)] is 117 here and 117.00000000000001
  in doubles.  Whole numbers (depths,
  lengths, pixel sizes) are natural numbers; they stand for doubles as long
  as they are below 2^53.  JavaScript strings are modelled by [string];
  [length] counts code units.

  A method either returns or raises.  The definitions of [TextMeasurer] give
  what a call returns and the state it leaves; [TextMeasurerErrors] tells
  when the call raises instead. *)

From Stdlib Require Import QArith Qround Qminmax Qabs ZArith Lia Lqa.
From Stdlib Require Import Strings.String Strings.Ascii Lists.List.
From Stdlib Require Import Numbers.DecimalString Numbers.DecimalNat.
From stdpp Require Import base option list strings gmap fin_maps.

Local Open Scope Q_scope.

#[local] Arguments String.append !s1 s2 / : simpl nomatch.

(** ** Coordinate converter (coordinate-system.ts) *)

Module CoordinateConverter.

(** [static toCanvasX(layoutY, offsetX = 0)] *)
Definition toCanvasX (layoutY offsetX : Q) : Q := layoutY + offsetX.

(** [static toCanvasY(layoutX, nodeHeight, offsetY = 0)] *)
Definition toCanvasY (layoutX nodeHeight offsetY : Q) : Q :=
  layoutX + offsetY - nodeHeight / 2.

(** [static toLayoutX(canvasY, nodeHeight, offsetY = 0)] *)
Definition toLayoutX (canvasY nodeHeight offsetY : Q) : Q :=
  canvasY - offsetY + nodeHeight / 2.

(** [static toRightEdge(layoutY, nodeWidth, padding, lineOffset, offsetX = 0)] *)
Definition toRightEdge (layoutY nodeWidth padding lineOffset offsetX : Q) : Q :=
  layoutY + nodeWidth - padding + lineOffset + offsetX.

(** [static toLeftEdge(layoutY, padding, lineOffset, offsetX = 0)] *)
Definition toLeftEdge (layoutY padding lineOffset offsetX : Q) : Q :=
  layoutY + padding - lineOffset + offsetX.

Record Bounds := mkBounds {
  bx : Q; by_ : Q; bright : Q; bbottom : Q; bwidth : Q; bheight : Q }.

(** [static getNodeBounds(canvasX, canvasY, width, height)] *)
Definition getNodeBounds (canvasX canvasY width height : Q) : Bounds :=
  {| bx := canvasX; by_ := canvasY;
     bright := canvasX + width; bbottom := canvasY + height;
     bwidth := width; bheight := height |}.

(** [static getVerticalDistance(layoutX1, layoutX2)] *)
Definition getVerticalDistance (layoutX1 layoutX2 : Q) : Q :=
  Qabs (layoutX1 - layoutX2).

(** [static isOverlapping(layoutX1, height1, layoutX2, height2, gap = 0)] *)
Definition isOverlapping (layoutX1 height1 layoutX2 height2 gap : Q) : bool :=
  let top1 := layoutX1 - height1 / 2 in
  let bottom1 := layoutX1 + height1 / 2 in
  let top2 := layoutX2 - height2 / 2 in
  let bottom2 := layoutX2 + height2 / 2 in
  negb (Qle_bool (bottom1 + gap) top2 || Qle_bool (bottom2 + gap) top1).

(** [static calculateActualGap(layoutX1, height1, layoutX2, height2)] *)
Definition calculateActualGap (layoutX1 height1 layoutX2 height2 : Q) : Q :=
  let bottom1 := layoutX1 + height1 / 2 in
  let top2 := layoutX2 - height2 / 2 in
  top2 - bottom1.

End CoordinateConverter.

(** ** JavaScript string and number primitives used by the text measurer *)

Module Js.

(** Template-literal rendering [`${n}`] of a natural number (a depth, a
    string length, a whole pixel size): its decimal digits, as JavaScript
    writes every whole number below 10^21. *)
Definition numberToString (n : nat) : string :=
  NilEmpty.string_of_uint (Nat.to_uint n).

(** [s.includes(c)] for a one-character needle. *)
Fixpoint includesChar (c : ascii) (s : string) : bool :=
  match s with
  | EmptyString => false
  | String a s' => if Ascii.eqb a c then true else includesChar c s'
  end.

(** [s.includes(needle)]: [needle] occurs in [s] as a substring. *)
Fixpoint includes (needle s : string) : bool :=
  String.prefix needle s ||
  match s with
  | EmptyString => false
  | String _ s' => includes needle s'
  end.

(** [s.split(sep)] for a one-character separator; never the empty list. *)
Fixpoint split (sep : ascii) (s : string) : list string :=
  match s with
  | EmptyString => [EmptyString]
  | String a s' =>
      if Ascii.eqb a sep then EmptyString :: split sep s'
      else match split sep s' with
           | [] => [String a EmptyString]
           | w :: ws => String a w :: ws
           end
  end.

(** [parts.join(sep)]. *)
Fixpoint join (sep : string) (parts : list string) : string :=
  match parts with
  | [] => EmptyString
  | [w] => w
  | w :: ws => w +:+ sep +:+ join sep ws
  end.

(** Truthiness of a string: [""] is falsy. *)
Definition truthy (s : string) : bool :=
  match s with EmptyString => false | String _ _ => true end.

Definition digitValue (c : ascii) : option nat :=
  let n := nat_of_ascii c in
  if (48 <=? n)%nat && (n <=? 57)%nat then Some (n - 48)%nat else None.

Fixpoint parseIntDigits (acc : nat) (s : string) : nat :=
  match s with
  | EmptyString => acc
  | String c s' =>
      match digitValue c with
      | Some d => parseIntDigits (10 * acc + d)%nat s'
      | None => acc
      end
  end.

(** [parseInt(s)] on strings that start with a decimal digit, as the font
    size constants ["20px"], ["18px"], ["15px"] do: the number written by the
    leading digits, which is the double JavaScript answers as long as it is
    below 2^53.  Strings that start otherwise are outside the model (white
    space is skipped by JavaScript, a sign and a [0x] prefix are read,
    anything else gives [NaN]); the model answers 0 there, and no caller gets
    there. *)
Definition parseInt (s : string) : nat := parseIntDigits 0%nat s.

(** The values [Math.floor(a / b)] can take: a whole number, or what a
    division by zero leaves. *)
Inductive Number :=
| Finite (z : Z)
| PosInfinity
| NegInfinity
| NaN.

(** [Math.floor(a / b)] on finite numbers, the quotient taken exactly; a
    zero divisor gives an infinity or [NaN] (zero is taken as positive
    zero). *)
Definition floorDiv (a b : Q) : Number :=
  if Qeq_bool b 0 then
    match a ?= 0 with
    | Gt => PosInfinity
    | Lt => NegInfinity
    | Eq => NaN
    end
  else Finite (Qfloor (a / b)).

(** [n <= m] for a string length [n]; comparisons with [NaN] are false. *)
Definition lengthLe (n : nat) (m : Number) : bool :=
  match m with
  | Finite z => (Z.of_nat n <=? z)%Z
  | PosInfinity => true
  | NegInfinity | NaN => false
  end.

(** [s.substring(0, m)]: negative and [NaN] ends count as 0. *)
Definition substring0 (s : string) (m : Number) : string :=
  match m with
  | Finite z => String.substring 0 (Z.to_nat z) s
  | PosInfinity => s
  | NegInfinity | NaN => EmptyString
  end.

Definition ceil (q : Q) : Q := inject_Z (Qceiling q).

End Js.

(** ** Font sizes by depth (constants/mindmap-constants.ts) *)

Module StyleConstants.

Definition ROOT_FONT_SIZE : string := "20px".
Definition LEVEL_1_FONT_SIZE : string := "18px".
Definition DEFAULT_FONT_SIZE : string := "15px".

(** [getFontSizeByDepth(depth)] *)
Definition getFontSizeByDepth (depth : nat) : string :=
  match depth with
  | 0%nat => ROOT_FONT_SIZE
  | 1%nat => LEVEL_1_FONT_SIZE
  | _ => DEFAULT_FONT_SIZE
  end.

End StyleConstants.

(** ** Text cleaning (utils/mindmap-utils.ts) *)

Module MindmapUtils.

(** Modelled from the spec: the white space of "empty/whitespace text",
    taken as what [String.prototype.trim] strips, within one-byte
    characters: tab, line feed, vertical tab, form feed, carriage return,
    space. *)
Definition isWhiteSpace (c : ascii) : bool :=
  let n := nat_of_ascii c in
  ((9 <=? n)%nat && (n <=? 13)%nat) || (n =? 32)%nat.

(** Modelled from the spec: text that is empty or white space only. *)
Fixpoint isBlank (s : string) : bool :=
  match s with
  | EmptyString => true
  | String c s' => isWhiteSpace c && isBlank s'
  end.

(** Modelled from the spec: [cleanTextContent] of utils/mindmap-utils.ts is
    imported by TextMeasurer.ts but its file is not among the sources.  The
    spec (section 4.1, error behaviour) says that empty or whitespace-only
    text is replaced by a single empty line; nothing else is said about the
    cleaning, so other text is left as it is. *)
Definition cleanTextContent (text : string) : string :=
  if isBlank text then EmptyString else text.

End MindmapUtils.

(** ** Text measurer (utils/TextMeasurer.ts) *)

Module TextMeasurer.
Import Js StyleConstants.

(** [{ width, height }] of a measured text. *)
Record Size := mkSize { size_width : Q; size_height : Q }.

(** [interface NodeDimensions] *)
Record NodeDimensions := mkNodeDimensions {
  width : Q;
  height : Q;
  textX : Q;
  textY : Q;
  fontSize : string;
  fontWeight : string;
  lines : list string;
  padding : Q;
  minWidth : Q;
  maxWidth : option Q
}.

(** The hidden DOM element: what [getBoundingClientRect()] reports once
    [textContent], [fontSize] (whole pixels) and [fontWeight] are set. *)
Definition Element : Type := string -> nat -> string -> Size.

(** The private fields of [class TextMeasurer]. *)
Record Measurer := mkMeasurer {
  textMeasurementElement : option Element;
  textMeasurementCache : gmap string Size;
  nodeDimensionsCache : gmap string NodeDimensions
}.

(** [new TextMeasurer()] *)
Definition create : Measurer :=
  {| textMeasurementElement := None;
     textMeasurementCache := ∅;
     nodeDimensionsCache := ∅ |}.

(** [`${text}-${fontSize}-${fontWeight}`] *)
Definition textMeasurementKey (text : string) (fontSize : nat) (fontWeight : string) : string :=
  text +:+ "-" +:+ numberToString fontSize +:+ "-" +:+ fontWeight.

(** [`${depth}-${text}-${text.length}`] *)
Definition nodeDimensionsKey (depth : nat) (text : string) : string :=
  numberToString depth +:+ "-" +:+ text +:+ "-" +:+ numberToString (String.length text).

(** [wrapText]'s loop over the words: the state is [lines] and
    [currentLine]; [fits s] is [s.length <= maxChars]. *)
Fixpoint wrapWords (fits : string -> bool) (words : list string)
    (lines : list string) (currentLine : string) : list string * string :=
  match words with
  | [] => (lines, currentLine)
  | word :: rest =>
      let testLine :=
        if truthy currentLine then currentLine +:+ " " +:+ word else word in
      if fits testLine then wrapWords fits rest lines testLine
      else
        wrapWords fits rest
          (if truthy currentLine then lines ++ [currentLine] else lines) word
  end.

(** [public wrapText(text, maxWidth, fontSize)] *)
Definition wrapText (text : string) (maxWidth : option Q) (fontSize : Q) : list string :=
  if negb (truthy text) || (String.length text =? 0)%nat then [EmptyString]
  else
    match maxWidth with
    | None =>
        if includesChar "010"%char text then split "010"%char text
        else [text]
    | Some maxWidth =>
        let charWidth := fontSize * 0.62 in
        let maxChars := floorDiv maxWidth charWidth in
        if lengthLe (String.length text) maxChars then [text]
        else
          let words := split " "%char text in
          let '(lines, currentLine) :=
            wrapWords (fun s => lengthLe (String.length s) maxChars) words [] EmptyString in
          let lines := if truthy currentLine then lines ++ [currentLine] else lines in
          if (0 <? length lines)%nat then lines else [substring0 text maxChars]
    end.

Section Methods.

(** [cleanTextContent] is imported from utils/mindmap-utils.ts. *)
Variable cleanTextContent : string -> string.

(** What [document.createElement('div')] hands to the measurer: an element
    that measures, as its DOM typing says, or nothing.  With nothing the
    source raises in [initializeTextMeasurementElement]
    ([TextMeasurerErrors.initializeRaises]); what the definitions below
    compute from there on is what the rest of the method body would
    return. *)
Variable createElement : option Element.

(** [private initializeTextMeasurementElement()]: the state it leaves when
    it returns.  [addClass] and [appendChild] act on the document only. *)
Definition initializeTextMeasurementElement (m : Measurer) : Measurer :=
  match textMeasurementElement m with
  | Some _ => m
  | None =>
      {| textMeasurementElement := createElement;
         textMeasurementCache := textMeasurementCache m;
         nodeDimensionsCache := nodeDimensionsCache m |}
  end.

(** [public measureTextAccurately(text, fontSize, fontWeight)] *)
Definition measureTextAccurately (text : string) (fontSize : nat) (fontWeight : string)
    (m : Measurer) : Size * Measurer :=
  let cacheKey := textMeasurementKey text fontSize fontWeight in
  match textMeasurementCache m !! cacheKey with
  | Some cached => (cached, m)
  | None =>
      let m := initializeTextMeasurementElement m in
      match textMeasurementElement m with
      | Some element =>
          let rect := element text fontSize fontWeight in
          let result := {| size_width := size_width rect; size_height := size_height rect |} in
          (result,
           {| textMeasurementElement := textMeasurementElement m;
              textMeasurementCache := <[cacheKey := result]> (textMeasurementCache m);
              nodeDimensionsCache := nodeDimensionsCache m |})
      | None =>
          let charWidth := inject_Z (Z.of_nat fontSize) * 0.62 in
          let lineHeight := inject_Z (Z.of_nat fontSize) * 1.2 in
          ({| size_width := inject_Z (Z.of_nat (String.length text)) * charWidth;
              size_height := lineHeight |}, m)
      end
  end.

(** The loop of [measureTextSize]: the widest measured line so far. *)
Fixpoint measureLines (lines : list string) (fontSize : nat) (fontWeight : string)
    (maxWidth : Q) (m : Measurer) : Q * Measurer :=
  match lines with
  | [] => (maxWidth, m)
  | line :: rest =>
      let '(measurement, m) := measureTextAccurately line fontSize fontWeight m in
      let maxWidth :=
        if negb (Qle_bool (size_width measurement) maxWidth)
        then size_width measurement else maxWidth in
      measureLines rest fontSize fontWeight maxWidth m
  end.

(** [public measureTextSize(lines, fontSize, fontWeight)] *)
Definition measureTextSize (lines : list string) (fontSize : nat) (fontWeight : string)
    (m : Measurer) : Size * Measurer :=
  if (length lines =? 0)%nat then
    ({| size_width := 40; size_height := inject_Z (Z.of_nat fontSize) * 1.3 |}, m)
  else
    let lineHeight := inject_Z (Z.of_nat fontSize) * 1.3 in
    let '(maxWidth, m) := measureLines lines fontSize fontWeight 0 m in
    let height := inject_Z (Z.of_nat (length lines)) * lineHeight in
    let width := Qmax maxWidth 35 in
    ({| size_width := ceil width; size_height := ceil height |}, m).

(** [getNodeDimensions] past the cache check: lines 220-276. *)
Definition computeNodeDimensions (depth : nat) (text : string) (m : Measurer)
    : NodeDimensions * Measurer :=
  let cleanedText := cleanTextContent text in
  let '(fontSize, fontWeight, maxWidth, minWidth, padding) :=
    match depth with
    | 0%nat => (getFontSizeByDepth 0, "bold"%string, @None Q, 40, 18)
    | 1%nat => (getFontSizeByDepth 1, "bold"%string, @None Q, 38, 16)
    | _ => (getFontSizeByDepth depth, "normal"%string, @None Q, 20, 10)
    end in
  let fontSizeNum := parseInt fontSize in
  let effectiveMaxWidth :=
    match maxWidth with
    | Some w => Some (w - padding * 2)
    | None => None
    end in
  let lines := wrapText cleanedText effectiveMaxWidth (inject_Z (Z.of_nat fontSizeNum)) in
  let '(textSize, m) := measureTextSize lines fontSizeNum fontWeight m in
  let safetyBuffer := Qmax 8 (size_width textSize * 0.05) in
  let width := Qmax (size_width textSize + padding * 2 + safetyBuffer) minWidth in
  let height :=
    Qmax (size_height textSize + padding * 2) (inject_Z (Z.of_nat fontSizeNum) * 2.0) in
  let textX := width / 2 in
  let textY := size_height textSize / 2 + padding / 2 in
  ({| width := width; height := height; textX := textX; textY := textY;
      fontSize := fontSize; fontWeight := fontWeight; lines := lines;
      padding := padding; minWidth := minWidth; maxWidth := maxWidth |}, m).

(** [public getNodeDimensions(depth, text)] *)
Definition getNodeDimensions (depth : nat) (text : string) (m : Measurer)
    : NodeDimensions * Measurer :=
  let cacheKey := nodeDimensionsKey depth text in
  match nodeDimensionsCache m !! cacheKey with
  | Some cached => (cached, m)
  | None =>
      let '(result, m) := computeNodeDimensions depth text m in
      (result,
       {| textMeasurementElement := textMeasurementElement m;
          textMeasurementCache := textMeasurementCache m;
          nodeDimensionsCache := <[cacheKey := result]> (nodeDimensionsCache m) |})
  end.

End Methods.

(** The scan of [clearNodeDimensionsCacheForText], run once per cache:
    collect the keys that include [text], then delete each of them. *)
Definition deleteKeysIncluding {V : Type} (text : string) (cache : gmap string V)
    : gmap string V :=
  let keysToDelete := List.filter (includes text) (map fst (map_to_list cache)) in
  foldl (fun c key => delete key c) cache keysToDelete.

(** [public clearNodeDimensionsCacheForText(text)] *)
Definition clearNodeDimensionsCacheForText (text : string) (m : Measurer) : Measurer :=
  {| textMeasurementElement := textMeasurementElement m;
     textMeasurementCache := deleteKeysIncluding text (textMeasurementCache m);
     nodeDimensionsCache := deleteKeysIncluding text (nodeDimensionsCache m) |}.

(** [public destroy()].  The element is dropped when it has a parent node,
    which it has since [initializeTextMeasurementElement] appended it to
    [document.body]. *)
Definition destroy (m : Measurer) : Measurer :=
  {| textMeasurementElement := None;
     textMeasurementCache := ∅;
     nodeDimensionsCache := ∅ |}.

(** The measurer states a client can produce: a fresh measurer, followed by
    any sequence of calls of the public methods. *)
Inductive reachable (cleanTextContent : string -> string) (createElement : option Element)
    : Measurer -> Prop :=
| reachable_create : reachable cleanTextContent createElement create
| reachable_measureTextAccurately text fontSize fontWeight m :
    reachable cleanTextContent createElement m ->
    reachable cleanTextContent createElement
      (snd (measureTextAccurately createElement text fontSize fontWeight m))
| reachable_measureTextSize lines fontSize fontWeight m :
    reachable cleanTextContent createElement m ->
    reachable cleanTextContent createElement
      (snd (measureTextSize createElement lines fontSize fontWeight m))
| reachable_getNodeDimensions depth text m :
    reachable cleanTextContent createElement m ->
    reachable cleanTextContent createElement
      (snd (getNodeDimensions cleanTextContent createElement depth text m))
| reachable_clear text m :
    reachable cleanTextContent createElement m ->
    reachable cleanTextContent createElement (clearNodeDimensionsCacheForText text m)
| reachable_destroy m :
    reachable cleanTextContent createElement m ->
    reachable cleanTextContent createElement (destroy m).

End TextMeasurer.

(** ** Exceptions of the text measurer (utils/TextMeasurer.ts) *)

Module TextMeasurerErrors.
Import Js StyleConstants TextMeasurer.

Section Raises.
Variable cleanTextContent : string -> string.
Variable createElement : option Element.

(** [initializeTextMeasurementElement] raises a [TypeError] when it has to
    create the element and [document.createElement] hands none: the next
    statement calls [addClass] on it (line 318). *)
Definition initializeRaises (m : Measurer) : bool :=
  match textMeasurementElement m with
  | Some _ => false
  | None =>
      match createElement with
      | Some _ => false
      | None => true
      end
  end.

(** [measureTextAccurately] returns from the cache without touching the
    element; otherwise it raises when the initialization does. *)
Definition measureTextAccuratelyRaises (text : string) (fontSize : nat)
    (fontWeight : string) (m : Measurer) : bool :=
  let cacheKey := textMeasurementKey text fontSize fontWeight in
  match textMeasurementCache m !! cacheKey with
  | Some _ => false
  | None => initializeRaises m
  end.




End Raises.

End TextMeasurerErrors.

(** ** Overlap detector and resolver (spec section 4.4) *)

Module OverlapResolver.
Import CoordinateConverter.

(** Modelled from the spec: the positioned node of section 3, cut down to
    what overlap resolution reads and writes (vertical [center], [height],
    ordered [children]); no source file holds the layout tree. *)
Inductive Node :=
| mkNode (center height : Q) (children : list Node).

(** Modelled from the spec: the fields of a node. *)
Definition center (n : Node) : Q := match n with mkNode c _ _ => c end.
Definition height (n : Node) : Q := match n with mkNode _ h _ => h end.
Definition children (n : Node) : list Node := match n with mkNode _ _ cs => cs end.

(** Modelled from the spec: node identity.  A node is named by the child
    indices that lead to it from the root. *)
Definition Path : Type := list nat.

(** Modelled from the spec: the node at a path, if any. *)
Fixpoint getNode (p : Path) (n : Node) : option Node :=
  match p with
  | [] => Some n
  | i :: p' =>
      match children n !! i with
      | Some c => getNode p' c
      | None => None
      end
  end.

(** Modelled from the spec: the stable pre-order traversal, each node with
    its path. *)
Fixpoint preorder (n : Node) : list (Path * Node) :=
  ([], n) ::
  (fix forest (i : nat) (cs : list Node) : list (Path * Node) :=
     match cs with
     | [] => []
     | c :: cs' =>
         map (fun pn => (i :: fst pn, snd pn)) (preorder c) ++ forest (S i) cs'
     end) 0%nat (children n).

(** Modelled from the spec: the pre-order of a run of siblings, the first of
    which is child [i]; this is the inner loop of [preorder], under a name. *)
Fixpoint preorderForest (i : nat) (cs : list Node) : list (Path * Node) :=
  match cs with
  | [] => []
  | c :: cs' =>
      map (fun pn => (i :: fst pn, snd pn)) (preorder c) ++ preorderForest (S i) cs'
  end.

(** Modelled from the spec: [p] names [q] or one of its ancestors. *)
Fixpoint isPrefix (p q : Path) : bool :=
  match p, q with
  | [], _ => true
  | _ :: _, [] => false
  | i :: p', j :: q' => (i =? j)%nat && isPrefix p' q'
  end.

(** Modelled from the spec: two nodes are candidates when they are not in
    an ancestor/descendant relationship (neither is the other or an ancestor
    of the other). *)
Definition unrelated (p q : Path) : bool :=
  negb (isPrefix p q) && negb (isPrefix q p).

(** Modelled from the spec: the delta is propagated to the entire subtree,
    children keep their relative offsets. *)
Fixpoint shiftSubtree (delta : Q) (n : Node) : Node :=
  match n with
  | mkNode c h cs => mkNode (c + delta) h (map (shiftSubtree delta) cs)
  end.

(** Modelled from the spec: push the node at [p] and its subtree by [delta]. *)
Fixpoint shiftAt (p : Path) (delta : Q) (n : Node) : Node :=
  match p with
  | [] => shiftSubtree delta n
  | i :: p' =>
      mkNode (center n) (height n) (alter (shiftAt p' delta) i (children n))
  end.

(** Modelled from the spec: vertical order, top to bottom, by center; of
    two nodes with identical centers the later in pre-order is the lower (a
    stable insertion sort of the pre-order list). *)
Fixpoint insertByCenter (x : Path * Node) (l : list (Path * Node)) : list (Path * Node) :=
  match l with
  | [] => [x]
  | y :: l' =>
      if Qle_bool (center (snd x)) (center (snd y)) then x :: y :: l'
      else y :: insertByCenter x l'
  end.

Definition verticalOrder (root : Node) : list (Path * Node) :=
  foldr insertByCenter [] (preorder root).

(** Modelled from the spec: every (upper, lower) pair of a list in order. *)
Fixpoint orderedPairs {A : Type} (l : list A) : list (A * A) :=
  match l with
  | [] => []
  | x :: l' => map (pair x) l' ++ orderedPairs l'
  end.

(** Modelled from the spec: the pairs a detection pass compares, (upper,
    lower) in vertical order, filtered explicitly by relationship. *)
Definition candidatePairs (root : Node) : list (Path * Path) :=
  List.filter (fun pq => unrelated (fst pq) (snd pq))
    (orderedPairs (map fst (verticalOrder root))).

(** Modelled from the spec: one entry [{node, previousCenter, newCenter}]
    of the audit trail. *)
Record Adjustment := mkAdjustment {
  node : Path;
  previousCenter : Q;
  newCenter : Q
}.

(** Modelled from the spec: one pair of a pass.  On a violation the lower
    node goes down, [newCenter = oldCenter + (minGap - gap)], and its subtree
    with it. *)
Definition resolvePair (minGap : Q) (pq : Path * Path) (st : Node * list Adjustment)
    : Node * list Adjustment :=
  let '(root, trail) := st in
  match getNode (fst pq) root, getNode (snd pq) root with
  | Some upper, Some lower =>
      if isOverlapping (center upper) (height upper) (center lower) (height lower) minGap
      then
        let gap :=
          calculateActualGap (center upper) (height upper) (center lower) (height lower) in
        let delta := minGap - gap in
        (shiftAt (snd pq) delta root,
         trail ++ [{| node := snd pq;
                      previousCenter := center lower;
                      newCenter := center lower + delta |}])
      else st
  | _, _ => st
  end.

(** Modelled from the spec: a full detection pass over the tree as it
    stands. *)
Definition detectionPass (minGap : Q) (root : Node) : Node * list Adjustment :=
  foldl (fun st pq => resolvePair minGap pq st) (root, []) (candidatePairs root).

(** Modelled from the spec: the result of a resolution, with the audit
    trail and the convergence flag. *)
Record Resolution := mkResolution {
  tree : Node;
  adjustments : list Adjustment;
  converged : bool
}.

(** Modelled from the spec: detection is re-run until a full pass makes no
    adjustment or [cap] passes made some. *)
Fixpoint resolveFrom (cap : nat) (minGap : Q) (root : Node) (trail : list Adjustment)
    : Resolution :=
  match cap with
  | O => {| tree := root; adjustments := trail; converged := false |}
  | S cap' =>
      let '(root', made) := detectionPass minGap root in
      match made with
      | [] => {| tree := root'; adjustments := trail; converged := true |}
      | _ :: _ => resolveFrom cap' minGap root' (trail ++ made)
      end
  end.

(** Modelled from the spec: [resolveOverlaps(root, minGap)] of section 4.4,
    which no source file holds.  Candidates are the pairs of nodes not in an
    ancestor/descendant relationship, the predicate is [isOverlapping] with
    [minGap], violations are processed top to bottom, the lower node and its
    subtree move by [minGap - gap], and detection is re-run until a full
    pass makes no adjustment (convergence) or the iteration cap is hit (the
    result is flagged as not converged).  The spec leaves the cap open, so
    it is an argument. *)
Definition resolveOverlaps (iterationCap : nat) (root : Node) (minGap : Q) : Resolution :=
  resolveFrom iterationCap minGap root [].

End OverlapResolver.

(** ** Notions used to state the properties *)

Module Notions.
Import TextMeasurer.

(** A number with no fractional part. *)
Definition isInteger (q : Q) : Prop := exists z : Z, q == inject_Z z.

(** [seg] is a run of consecutive elements of [l]. *)
Definition isInfixOf {A : Type} (seg l : list A) : Prop :=
  exists before after, l = before ++ seg ++ after.

(** [line] is made of whole words of [text]: it is a run of consecutive
    space-separated words of [text], joined by single spaces. *)
Definition wholeWords (text line : string) : Prop :=
  exists seg, isInfixOf seg (Js.split " "%char text) /\ line = Js.join " " seg.

(** A string of [n] spaces. *)
Fixpoint spaces (n : nat) : string :=
  match n with
  | O => EmptyString
  | S n' => String " "%char (spaces n')
  end.

(** Every entry of the dimension cache is what [getNodeDimensions] computes
    past the cache check for the depth and text of its key. *)
Definition cacheSound (cleanTextContent : string -> string)
    (createElement : option Element) (m : Measurer) : Prop :=
  forall depth text cached,
    nodeDimensionsCache m !! nodeDimensionsKey depth text = Some cached ->
    exists m0, cached = fst (computeNodeDimensions cleanTextContent createElement depth text m0).

End Notions.

(** ** Further string primitives *)

Module JsStrings.
Import Js.

(** [s] without its first [n] characters. *)
Fixpoint dropChars (n : nat) (s : string) : string :=
  match n, s with
  | O, _ => s
  | S _, EmptyString => EmptyString
  | S n', String _ s' => dropChars n' s'
  end.

(** [s.replace(pattern, replacement)] for a string pattern and a replacement
    without [$] patterns: the first occurrence of [pattern] is replaced. *)
Fixpoint replace (pattern replacement s : string) : string :=
  if String.prefix pattern s
  then replacement +:+ dropChars (String.length pattern) s
  else
    match s with
    | EmptyString => EmptyString
    | String c s' => String c (replace pattern replacement s')
    end.

(** [\d] *)
Definition isDigit (c : ascii) : bool :=
  match digitValue c with Some _ => true | None => false end.

(** [/^\d+px$/.test(s)]; [seen] tells that a digit has been read. *)
Fixpoint digitsThenPx (seen : bool) (s : string) : bool :=
  match s with
  | EmptyString => false
  | String c s' =>
      if isDigit c then digitsThenPx true s'
      else seen && String.eqb s "px"
  end.

(** [Math.min(a, b, c)] *)
Definition min3 (a b c : Q) : Q := Qmin (Qmin a b) c.

End JsStrings.

(** ** Numeric font sizes (constants/mindmap-constants.ts, font size manager) *)

Module FontSizeManager.
Import Js JsStrings StyleConstants.

(** [getNumericFontSizeByDepth(depth)] of mindmap-constants.ts *)
Definition getNumericFontSizeByDepth (depth : nat) : nat :=
  parseInt (replace "px" "" (getFontSizeByDepth depth)).

(** [static getFontSize(depth)] *)
Definition getFontSize (depth : nat) : string := getFontSizeByDepth depth.

(** [static getNumericFontSize(depth)] *)
Definition getNumericFontSize (depth : nat) : nat := getNumericFontSizeByDepth depth.

(** [static isValidFontSize(fontSize)] *)
Definition isValidFontSize (fontSize : string) : bool := digitsThenPx false fontSize.

(** [static fontSizeToNumber(fontSize)] *)
Definition fontSizeToNumber (fontSize : string) : nat :=
  parseInt (replace "px" "" fontSize).

(** [static validateFontSizeConsistency()] *)
Definition validateFontSizeConsistency : bool :=
  let rootSize := fontSizeToNumber ROOT_FONT_SIZE in
  let level1Size := fontSizeToNumber LEVEL_1_FONT_SIZE in
  let defaultSize := fontSizeToNumber DEFAULT_FONT_SIZE in
  (level1Size <? rootSize)%nat && (defaultSize <=? level1Size)%nat.

End FontSizeManager.

(** ** Link connection points (link renderer) *)

Module LinkRenderer.
Import Js JsStrings CoordinateConverter TextMeasurer.

(** [interface LinkRendererConfig] *)
Record LinkRendererConfig := mkLinkRendererConfig { lineOffset : Q }.

(** The constructor: [lineOffset: config?.lineOffset || 6].  The argument is
    the [lineOffset] of the optional partial config, if one is given; 0 is
    falsy and gives the default too. *)
Definition create (lineOffset : option Q) : LinkRendererConfig :=
  match lineOffset with
  | Some offset => {| lineOffset := if Qeq_bool offset 0 then 6 else offset |}
  | None => {| lineOffset := 6 |}
  end.

(** What the renderer reads of a node of the laid-out hierarchy: [depth],
    [data.text], [x] (vertical center) and [y] (left edge). *)
Record HierarchyNode := mkHierarchyNode {
  depth : nat;
  text : string;
  x : Q;
  y : Q
}.

Record HierarchyLink := mkHierarchyLink {
  source : HierarchyNode;
  target : HierarchyNode
}.

Record ConnectionPoints := mkConnectionPoints {
  sourceX : Q;
  sourceY : Q;
  targetX : Q;
  targetY : Q
}.

(** [private getNodePadding(depth)] *)
Definition getNodePadding (depth : nat) : Q :=
  match depth with
  | 0%nat => 24
  | 1%nat => 20
  | _ => 16
  end.

Section Methods.
Variable cleanTextContent : string -> string.
Variable createElement : option Element.
Variable config : LinkRendererConfig.

(** [private getLinkConnectionPoints(link, offsetX, offsetY)]; the text
    measurer of the renderer is threaded through. *)
Definition getLinkConnectionPoints (link : HierarchyLink) (offsetX offsetY : Q)
    (m : Measurer) : ConnectionPoints * Measurer :=
  let '(sourceDimensions, m) :=
    getNodeDimensions cleanTextContent createElement
      (depth (source link)) (text (source link)) m in
  let sourcePadding := getNodePadding (depth (source link)) in
  let targetPadding := getNodePadding (depth (target link)) in
  let sourceX :=
    toRightEdge (y (source link)) (width sourceDimensions) sourcePadding
      (lineOffset config) offsetX in
  let targetX :=
    toLeftEdge (y (target link)) targetPadding (lineOffset config) offsetX in
  let sourceY := toCanvasY (x (source link)) 0 offsetY in
  let targetY := toCanvasY (x (target link)) 0 offsetY in
  ({| sourceX := sourceX; sourceY := sourceY;
      targetX := targetX; targetY := targetY |}, m).

End Methods.

(** The numbers [generateRoundedPath] writes into its path template
    [M sx,sy L turn1X,sy L cornerStartX,cornerStartY Q cornerStartX,ty
    cornerEndX,cornerEndY L tx,ty]. *)
Record RoundedPath := mkRoundedPath {
  turn1X : Q;
  radius : Q;
  cornerStartX : Q;
  cornerStartY : Q;
  cornerEndX : Q;
  cornerEndY : Q
}.

(** [private generateRoundedPath(sourceX, sourceY, targetX, targetY,
    cornerRadius = 8)], up to the formatting of the path string. *)
Definition generateRoundedPath (sourceX sourceY targetX targetY cornerRadius : Q)
    : RoundedPath :=
  let horizontalDistance := targetX - sourceX in
  let turn1X := sourceX + horizontalDistance * 0.45 in
  let radius :=
    min3 cornerRadius (Qabs (targetX - turn1X) * 0.4) (Qabs (targetY - sourceY) * 0.4) in
  let verticalEndY :=
    targetY + (if negb (Qle_bool targetY sourceY) then - radius else radius) in
  let cornerStartX := turn1X in
  let cornerStartY := verticalEndY in
  let cornerEndX :=
    turn1X + (if negb (Qle_bool targetX turn1X) then radius else - radius) in
  let cornerEndY := targetY in
  {| turn1X := turn1X; radius := radius;
     cornerStartX := cornerStartX; cornerStartY := cornerStartY;
     cornerEndX := cornerEndX; cornerEndY := cornerEndY |}.

End LinkRenderer.

(** ** Further notions used to state the properties *)

Module MoreNotions.

(** [b] lies between [a] and [c], whichever of the two is the smaller. *)
Definition between (a b c : Q) : Prop :=
  (a <= b /\ b <= c) \/ (c <= b /\ b <= a).

(** The estimate at the end of [measureTextAccurately]:
    [{ width: text.length * fontSize * 0.62, height: fontSize * 1.2 }]. *)
Definition estimate (text : string) (fontSize : nat) : TextMeasurer.Size :=
  {| TextMeasurer.size_width :=
       inject_Z (Z.of_nat (String.length text)) * (inject_Z (Z.of_nat fontSize) * 0.62);
     TextMeasurer.size_height := inject_Z (Z.of_nat fontSize) * 1.2 |}.

(** The style chosen by the [if (depth === 0) ... else if (depth === 1) ...
    else ...] chain of [getNodeDimensions], and the font size it parses. *)
Definition paddingByDepth (depth : nat) : Q :=
  match depth with 0%nat => 18 | 1%nat => 16 | _ => 10 end.

Definition minWidthByDepth (depth : nat) : Q :=
  match depth with 0%nat => 40 | 1%nat => 38 | _ => 20 end.

Definition fontWeightByDepth (depth : nat) : string :=
  match depth with 0%nat | 1%nat => "bold" | _ => "normal" end.

Definition fontSizeNumByDepth (depth : nat) : nat :=
  Js.parseInt (StyleConstants.getFontSizeByDepth depth).

End MoreNotions.

(** * Properties *)

Module CoordinateConverterFacts.
Import CoordinateConverter.

(** Fixture values of test/unit/coordinate-system.test.ts. *)
Example isOverlapping_fixture_overlap :
  isOverlapping 100 50 120 50 0 = true.
Proof. reflexivity. Qed.

Example isOverlapping_fixture_gap :
  isOverlapping 75 176 193 40 10 = false /\ isOverlapping 75 176 185 40 10 = true.
Proof. split; reflexivity. Qed.

Example calculateActualGap_fixture :
  calculateActualGap 75 176 193 40 == 10.
Proof. reflexivity. Qed.

Lemma isOverlapping_true_iff c1 h1 c2 h2 gap :
  isOverlapping c1 h1 c2 h2 gap = true <->
  ~ ((c1 + h1 / 2) + gap <= c2 - h2 / 2 \/ (c2 + h2 / 2) + gap <= c1 - h1 / 2).
Proof.
  unfold isOverlapping; cbv zeta.
  rewrite negb_true_iff, orb_false_iff.
  split.
  - intros [H1 H2] [H | H]; apply Qle_bool_iff in H; congruence.
  - intros H; split; apply not_true_is_false; intros Hb;
      apply Qle_bool_iff in Hb; tauto.
Qed.

Lemma isOverlapping_sym c1 h1 c2 h2 gap :
  isOverlapping c1 h1 c2 h2 gap = isOverlapping c2 h2 c1 h1 gap.
Proof. unfold isOverlapping; cbv zeta. now rewrite orb_comm. Qed.

(** C2. [isOverlapping] is the negation of "box 1 ends at least [gap]
    above box 2, or box 2 ends at least [gap] above box 1", with
    [top = center - height/2] and [bottom = center + height/2]; exact touch
    with zero gap, [isOverlapping(100, 50, 150, 50, 0)], is [false]. *)
Theorem isOverlapping_spec :
  (forall center1 height1 center2 height2 gap : Q,
      let top1 := center1 - height1 / 2 in
      let bottom1 := center1 + height1 / 2 in
      let top2 := center2 - height2 / 2 in
      let bottom2 := center2 + height2 / 2 in
      (isOverlapping center1 height1 center2 height2 gap = true <->
         ~ (bottom1 + gap <= top2 \/ bottom2 + gap <= top1)) /\
      (isOverlapping center1 height1 center2 height2 gap = false <->
         (bottom1 + gap <= top2 \/ bottom2 + gap <= top1)))
  /\ isOverlapping 100 50 150 50 0 = false.
Proof.
  split; [| reflexivity].
  intros c1 h1 c2 h2 gap; cbv zeta.
  pose proof (isOverlapping_true_iff c1 h1 c2 h2 gap) as Ht.
  split; [exact Ht |].
  split.
  - intros Hf.
    destruct (Qlt_le_dec (c2 - h2 / 2) (c1 + h1 / 2 + gap)) as [Ha | Ha];
      [| now left].
    destruct (Qlt_le_dec (c1 - h1 / 2) (c2 + h2 / 2 + gap)) as [Hb | Hb];
      [| now right].
    assert (isOverlapping c1 h1 c2 h2 gap = true) as Habs.
    { apply Ht. intros [H | H]; [apply Qle_not_lt in H | apply Qle_not_lt in H]; tauto. }
    congruence.
  - intros H. apply not_true_is_false. intros Hb. apply Ht in Hb. tauto.
Qed.

(** C3. Center-to-top-edge conversion followed by its inverse is the
    identity: [toLayoutX(toCanvasY(c, h, o), h, o) = c] over exact
    arithmetic. *)
Theorem toLayoutX_toCanvasY (c h o : Q) :
  toLayoutX (toCanvasY c h o) h o == c.
Proof. unfold toLayoutX, toCanvasY. field. Qed.

End CoordinateConverterFacts.

(** ** Strings and cache keys *)

Module JsFacts.
Import Js.

Lemma prefix_app (n b : string) : String.prefix n (n +:+ b) = true.
Proof.
  induction n as [| c n IH]; simpl.
  - now destruct b.
  - destruct (ascii_dec c c); [exact IH | congruence].
Qed.

Lemma append_assoc (a b c : string) : (a +:+ b) +:+ c = a +:+ b +:+ c.
Proof. induction a as [| x a IH]; simpl; [reflexivity | now rewrite IH]. Qed.

Lemma includes_empty (s : string) : includes EmptyString s = true.
Proof. destruct s; reflexivity. Qed.

Lemma includes_prefix (n s : string) :
  String.prefix n s = true -> includes n s = true.
Proof. intros H. destruct s; cbn [includes]; rewrite H; reflexivity. Qed.

Lemma includes_app (a n b : string) : includes n (a +:+ n +:+ b) = true.
Proof.
  induction a as [| c a IH].
  - cbn [String.append]. apply includes_prefix, prefix_app.
  - cbn [String.append includes]. rewrite IH. apply orb_true_r.
Qed.

Lemma prefix_inv (n s : string) :
  String.prefix n s = true -> exists b, s = n +:+ b.
Proof.
  revert s; induction n as [| c n IH]; intros s H.
  - now exists s.
  - destruct s as [| d s]; simpl in H; [discriminate |].
    destruct (ascii_dec c d) as [-> |]; [| discriminate].
    destruct (IH _ H) as [b ->]. now exists b.
Qed.

Lemma includes_inv (n s : string) :
  includes n s = true -> exists a b, s = a +:+ n +:+ b.
Proof.
  induction s as [| c s IH]; cbn [includes]; intros H.
  - rewrite orb_false_r in H. destruct (prefix_inv _ _ H) as [b Hb].
    now exists EmptyString, b.
  - apply orb_true_iff in H as [H | H].
    + destruct (prefix_inv _ _ H) as [b ->]. now exists EmptyString, b.
    + destruct (IH H) as (a & b & ->). now exists (String c a), b.
Qed.

(** [s.includes(n)] holds exactly when [n] is a substring of [s]. *)
Lemma includes_iff (n s : string) :
  includes n s = true <-> exists a b, s = a +:+ n +:+ b.
Proof.
  split; [apply includes_inv | intros (a & b & ->); apply includes_app].
Qed.

Lemma includesChar_app (c : ascii) (a b : string) :
  includesChar c (a +:+ b) = includesChar c a || includesChar c b.
Proof.
  induction a as [| d a IH]; simpl; [reflexivity |].
  destruct (Ascii.eqb d c); [reflexivity | exact IH].
Qed.

Lemma numberToString_digits (d : Decimal.uint) :
  includesChar "-"%char (NilEmpty.string_of_uint d) = false.
Proof. induction d; simpl; auto. Qed.

Lemma numberToString_no_dash (n : nat) :
  includesChar "-"%char (numberToString n) = false.
Proof. apply numberToString_digits. Qed.

Lemma numberToString_inj (n n' : nat) :
  numberToString n = numberToString n' -> n = n'.
Proof.
  unfold numberToString; intros H.
  apply Unsigned.to_uint_inj.
  pose proof (NilEmpty.usu (Nat.to_uint n)) as H1.
  pose proof (NilEmpty.usu (Nat.to_uint n')) as H2.
  rewrite H in H1. congruence.
Qed.

(** The text before the first ["-"] of a string is determined. *)
Lemma first_dash_split (a a' x x' : string) :
  includesChar "-"%char a = false -> includesChar "-"%char a' = false ->
  a +:+ "-" +:+ x = a' +:+ "-" +:+ x' -> a = a' /\ x = x'.
Proof.
  revert a'; induction a as [| c a IH]; intros [| c' a'] Ha Ha' H; simpl in *.
  - now inversion H.
  - inversion H; subst c'. simpl in Ha'. discriminate.
  - inversion H; subst c. simpl in Ha. discriminate.
  - inversion H; subst c'.
    destruct (Ascii.eqb c "-"%char); [discriminate |].
    destruct (IH a' Ha Ha' H2) as [-> ->]. now split.
Qed.

(** The text after the last ["-"] of a string is determined. *)
Lemma last_dash_split (x x' b b' : string) :
  includesChar "-"%char b = false -> includesChar "-"%char b' = false ->
  x +:+ "-" +:+ b = x' +:+ "-" +:+ b' -> x = x' /\ b = b'.
Proof.
  revert x'; induction x as [| c x IH]; intros [| c' x'] Hb Hb' H; simpl in *.
  - now inversion H.
  - inversion H; subst. rewrite includesChar_app in Hb. simpl in Hb.
    rewrite orb_true_r in Hb. discriminate.
  - inversion H; subst. rewrite includesChar_app in Hb'. simpl in Hb'.
    rewrite orb_true_r in Hb'. discriminate.
  - inversion H; subst c'.
    destruct (IH x' Hb Hb' H2) as [-> ->]. now split.
Qed.

End JsFacts.

(** ** The two caches of the text measurer *)

Module CacheFacts.
Import Js JsFacts TextMeasurer Notions.

Lemma nodeDimensionsKey_inj (d d' : nat) (t t' : string) :
  nodeDimensionsKey d t = nodeDimensionsKey d' t' -> d = d' /\ t = t'.
Proof.
  unfold nodeDimensionsKey; intros H.
  apply first_dash_split in H as [Hd H]; try apply numberToString_no_dash.
  apply last_dash_split in H as [Ht _]; try apply numberToString_no_dash.
  split; [now apply numberToString_inj | exact Ht].
Qed.

Lemma nodeDimensionsKey_includes (d : nat) (t : string) :
  includes t (nodeDimensionsKey d t) = true.
Proof. unfold nodeDimensionsKey. rewrite <- append_assoc. apply includes_app. Qed.

Lemma lookup_foldl_delete {V : Type} (ks : list string) (c : gmap string V) (key : string) :
  foldl (fun c k => delete k c) c ks !! key =
  if decide (key ∈ ks) then None else c !! key.
Proof.
  revert c; induction ks as [| k ks IH]; intros c; simpl.
  - destruct (decide (key ∈ [])) as [H | _]; [| reflexivity].
    now apply elem_of_nil in H.
  - rewrite IH.
    destruct (decide (key ∈ ks)) as [Hin | Hnin].
    + rewrite decide_True; [reflexivity | now apply elem_of_cons; right].
    + destruct (decide (key = k)) as [-> | Hne].
      * rewrite lookup_delete_eq.
        rewrite decide_True; [reflexivity | now apply elem_of_cons; left].
      * rewrite lookup_delete_ne by congruence.
        rewrite decide_False; [reflexivity |].
        intros [? | ?]%elem_of_cons; tauto.
Qed.

(** What the scan leaves: the entries whose key does not include [text]. *)
Lemma lookup_deleteKeysIncluding {V : Type} (text : string) (cache : gmap string V)
    (key : string) :
  deleteKeysIncluding text cache !! key =
  if includes text key then None else cache !! key.
Proof.
  unfold deleteKeysIncluding. rewrite lookup_foldl_delete.
  destruct (decide _) as [Hin | Hnin].
  - apply list_elem_of_In, filter_In in Hin as [_ ->]. reflexivity.
  - destruct (includes text key) eqn:Hinc; [| reflexivity].
    destruct (cache !! key) as [v |] eqn:Hk; [| reflexivity].
    exfalso; apply Hnin. apply list_elem_of_In, filter_In. split; [| exact Hinc].
    apply in_map_iff. exists (key, v). split; [reflexivity |].
    apply list_elem_of_In, elem_of_map_to_list. exact Hk.
Qed.

(** C5 does not hold as stated: with the texts ["ab"] and ["a"] cached at
    depth 0, invalidating ["a"] also removes the entry of ["ab"], whose key
    ["0-ab-2"] includes ["a"]. *)
Lemma invalidation_removes_other_text :
  let m1 := snd (getNodeDimensions MindmapUtils.cleanTextContent None 0 "ab" create) in
  let m2 := snd (getNodeDimensions MindmapUtils.cleanTextContent None 0 "a" m1) in
  let m3 := clearNodeDimensionsCacheForText "a" m2 in
  "ab"%string <> "a"%string /\
  is_Some (nodeDimensionsCache m2 !! nodeDimensionsKey 0 "ab") /\
  nodeDimensionsCache m3 !! nodeDimensionsKey 0 "ab" = None.
Proof.
  cbv zeta. split; [discriminate |]. split.
  - vm_compute. eauto.
  - unfold clearNodeDimensionsCacheForText; cbn [nodeDimensionsCache].
    rewrite lookup_deleteKeysIncluding. reflexivity.
Qed.

(** C10. Invalidating the empty string empties both caches: every key
    includes [""]. *)
Theorem clearNodeDimensionsCacheForText_empty (m : Measurer) :
  nodeDimensionsCache (clearNodeDimensionsCacheForText "" m) = ∅ /\
  textMeasurementCache (clearNodeDimensionsCacheForText "" m) = ∅.
Proof.
  unfold clearNodeDimensionsCacheForText;
    cbn [nodeDimensionsCache textMeasurementCache].
  split; apply map_eq; intros key;
    rewrite lookup_deleteKeysIncluding, includes_empty, lookup_empty; reflexivity.
Qed.

Section Invariant.
Variable cleanTextContent : string -> string.
Variable createElement : option Element.

Lemma measureTextAccurately_dims text fontSize fontWeight m :
  nodeDimensionsCache (snd (measureTextAccurately createElement text fontSize fontWeight m))
  = nodeDimensionsCache m.
Proof.
  unfold measureTextAccurately, initializeTextMeasurementElement; cbv zeta.
  destruct (textMeasurementCache m !! _); [reflexivity |].
  destruct (textMeasurementElement m) eqn:E; cbn; rewrite ?E; [reflexivity |].
  destruct createElement; reflexivity.
Qed.

Lemma measureLines_dims lines fontSize fontWeight maxWidth m :
  nodeDimensionsCache (snd (measureLines createElement lines fontSize fontWeight maxWidth m))
  = nodeDimensionsCache m.
Proof.
  revert maxWidth m; induction lines as [| line rest IH]; intros maxWidth m; simpl.
  - reflexivity.
  - pose proof (measureTextAccurately_dims line fontSize fontWeight m) as H.
    destruct (measureTextAccurately createElement line fontSize fontWeight m) as [ms m'].
    rewrite IH. exact H.
Qed.

Lemma measureTextSize_dims lines fontSize fontWeight m :
  nodeDimensionsCache (snd (measureTextSize createElement lines fontSize fontWeight m))
  = nodeDimensionsCache m.
Proof.
  unfold measureTextSize.
  destruct (length lines =? 0)%nat; [reflexivity |].
  pose proof (measureLines_dims lines fontSize fontWeight 0 m) as H.
  destruct (measureLines createElement lines fontSize fontWeight 0 m) as [w m'].
  exact H.
Qed.

Lemma computeNodeDimensions_dims depth text m :
  nodeDimensionsCache (snd (computeNodeDimensions cleanTextContent createElement depth text m))
  = nodeDimensionsCache m.
Proof.
  unfold computeNodeDimensions.
  destruct depth as [| [| depth]]; cbv beta iota zeta;
    match goal with
    | |- context [measureTextSize ?c ?l ?f ?w ?m] =>
        pose proof (measureTextSize_dims l f w m) as H;
        destruct (measureTextSize c l f w m) as [ts m']
    end; exact H.
Qed.

(** The dimension cache of a reachable measurer holds computed values only. *)
Lemma reachable_cacheSound m :
  reachable cleanTextContent createElement m ->
  cacheSound cleanTextContent createElement m.
Proof.
  induction 1 as [| text fs fw m Hr IH | lines fs fw m Hr IH
                  | depth text m Hr IH | text m Hr IH | m Hr IH];
    intros d t v Hv.
  - discriminate.
  - rewrite measureTextAccurately_dims in Hv. eauto.
  - rewrite measureTextSize_dims in Hv. eauto.
  - unfold getNodeDimensions in Hv.
    destruct (nodeDimensionsCache m !! nodeDimensionsKey depth text) eqn:Hc;
      [now apply IH |].
    pose proof (computeNodeDimensions_dims depth text m) as Hd.
    destruct (computeNodeDimensions cleanTextContent createElement depth text m)
      as [r m'] eqn:Hr'.
    cbn [snd nodeDimensionsCache] in Hv, Hd.
    destruct (decide (nodeDimensionsKey depth text = nodeDimensionsKey d t)) as [Hk | Hk].
    + rewrite Hk, lookup_insert_eq in Hv. injection Hv as <-.
      apply nodeDimensionsKey_inj in Hk as [-> ->].
      exists m. now rewrite Hr'.
    + rewrite lookup_insert_ne in Hv by exact Hk.
      rewrite Hd in Hv. now apply IH.
  - unfold clearNodeDimensionsCacheForText in Hv; cbn [nodeDimensionsCache] in Hv.
    rewrite lookup_deleteKeysIncluding in Hv.
    destruct (includes text (nodeDimensionsKey d t)); [discriminate | now apply IH].
  - discriminate.
Qed.

(** Served from the cache or not, a result is a computed one. *)
Lemma getNodeDimensions_computed depth text m :
  cacheSound cleanTextContent createElement m ->
  exists m0,
    fst (getNodeDimensions cleanTextContent createElement depth text m)
    = fst (computeNodeDimensions cleanTextContent createElement depth text m0).
Proof.
  intros Hs. unfold getNodeDimensions.
  destruct (nodeDimensionsCache m !! nodeDimensionsKey depth text) eqn:Hc.
  - exact (Hs _ _ _ Hc).
  - exists m.
    destruct (computeNodeDimensions cleanTextContent createElement depth text m);
      reflexivity.
Qed.

(** A call leaves its result in the cache under the key of its arguments. *)
Lemma getNodeDimensions_stores depth text m :
  nodeDimensionsCache (snd (getNodeDimensions cleanTextContent createElement depth text m))
    !! nodeDimensionsKey depth text
  = Some (fst (getNodeDimensions cleanTextContent createElement depth text m)).
Proof.
  unfold getNodeDimensions.
  destruct (nodeDimensionsCache m !! nodeDimensionsKey depth text) eqn:Hc;
    [exact Hc |].
  destruct (computeNodeDimensions cleanTextContent createElement depth text m).
  cbn [fst snd nodeDimensionsCache]. apply lookup_insert_eq.
Qed.

(** A call never changes or drops an entry that is already cached. *)
Lemma getNodeDimensions_keeps depth text m key cached :
  nodeDimensionsCache m !! key = Some cached ->
  nodeDimensionsCache (snd (getNodeDimensions cleanTextContent createElement depth text m))
    !! key = Some cached.
Proof.
  intros Hk. unfold getNodeDimensions.
  destruct (nodeDimensionsCache m !! nodeDimensionsKey depth text) eqn:Hc;
    [exact Hk |].
  pose proof (computeNodeDimensions_dims depth text m) as Hd.
  destruct (computeNodeDimensions cleanTextContent createElement depth text m)
    as [r m'].
  cbn [fst snd nodeDimensionsCache] in *.
  rewrite lookup_insert_ne by congruence. now rewrite Hd.
Qed.

End Invariant.

(** C5, amended.  Invalidation is by substring match on the cache key.
    After the dimensions of [t] and [u] are computed and cached and [u] is
    invalidated, the entries of [u] are removed at every depth; the entry of
    [t] is removed too when its key [`${depth}-${t}-${t.length}`] includes
    [u], and is still present and unchanged otherwise; in general exactly
    the entries whose key includes [u] are removed. *)
Theorem clearNodeDimensionsCacheForText_substring
    (cleanTextContent : string -> string) (createElement : option Element)
    (m : Measurer) (depthT depthU : nat) (t u : string) :
  let cachedT := fst (getNodeDimensions cleanTextContent createElement depthT t m) in
  let m1 := snd (getNodeDimensions cleanTextContent createElement depthT t m) in
  let m2 := snd (getNodeDimensions cleanTextContent createElement depthU u m1) in
  let m3 := clearNodeDimensionsCacheForText u m2 in
  (forall depth : nat, nodeDimensionsCache m3 !! nodeDimensionsKey depth u = None) /\
  nodeDimensionsCache m2 !! nodeDimensionsKey depthT t = Some cachedT /\
  nodeDimensionsCache m3 !! nodeDimensionsKey depthT t
    = (if includes u (nodeDimensionsKey depthT t) then None else Some cachedT) /\
  (forall key : string,
      nodeDimensionsCache m3 !! key
      = if includes u key then None else nodeDimensionsCache m2 !! key).
Proof.
  cbv zeta.
  set (m1 := snd (getNodeDimensions cleanTextContent createElement depthT t m)).
  set (m2 := snd (getNodeDimensions cleanTextContent createElement depthU u m1)).
  assert (nodeDimensionsCache m2 !! nodeDimensionsKey depthT t
          = Some (fst (getNodeDimensions cleanTextContent createElement depthT t m)))
    as Hkept.
  { apply getNodeDimensions_keeps, getNodeDimensions_stores. }
  unfold clearNodeDimensionsCacheForText; cbn [nodeDimensionsCache].
  repeat split.
  - intros depth. now rewrite lookup_deleteKeysIncluding, nodeDimensionsKey_includes.
  - exact Hkept.
  - now rewrite lookup_deleteKeysIncluding, Hkept.
  - intros key. apply lookup_deleteKeysIncluding.
Qed.

End CacheFacts.

(** ** Node dimensions *)

Module TextMeasurerFacts.
Import Js JsFacts StyleConstants TextMeasurer TextMeasurerErrors Notions CacheFacts.

Lemma isInteger_inject_Z (z : Z) : isInteger (inject_Z z).
Proof. now exists z. Qed.

Lemma isInteger_ceil (q : Q) : isInteger (ceil q).
Proof. apply isInteger_inject_Z. Qed.

Lemma isInteger_plus (a b : Q) : isInteger a -> isInteger b -> isInteger (a + b).
Proof.
  intros [x Hx] [y Hy]. exists (x + y)%Z.
  rewrite inject_Z_plus, Hx, Hy. reflexivity.
Qed.

Lemma isInteger_Qeq (a b : Q) : a == b -> isInteger a -> isInteger b.
Proof. intros E [x Hx]. exists x. now rewrite <- E. Qed.

Lemma isInteger_max (a b : Q) : isInteger a -> isInteger b -> isInteger (Qmax a b).
Proof.
  intros Ha Hb.
  destruct (Q.max_spec a b) as [[_ E] | [_ E]];
    [apply (isInteger_Qeq b) | apply (isInteger_Qeq a)]; auto; now symmetry.
Qed.

Lemma split_nonempty (sep : ascii) (s : string) : split sep s <> [].
Proof.
  induction s as [| c s IH]; simpl; [discriminate |].
  destruct (Ascii.eqb c sep); [discriminate |].
  destruct (split sep s); discriminate.
Qed.

(** Without a maximum width [wrapText] always returns at least one line. *)
Lemma wrapText_no_limit_nonempty (text : string) (fontSize : Q) :
  wrapText text None fontSize <> [].
Proof.
  unfold wrapText.
  destruct (negb (truthy text) || (String.length text =? 0)%nat); [discriminate |].
  destruct (includesChar _ text); [apply split_nonempty | discriminate].
Qed.

Section Sizes.
Variable createElement : option Element.

(** For at least one line, both measurement paths end in the same
    [Math.ceil]: the text size is whole, and at least 35 wide. *)
Lemma measureTextSize_ceiled lines fontSize fontWeight m :
  lines <> [] ->
  let size := fst (measureTextSize createElement lines fontSize fontWeight m) in
  isInteger (size_width size) /\ isInteger (size_height size) /\ 35 <= size_width size.
Proof.
  intros Hne. unfold measureTextSize.
  destruct lines as [| l ls]; [congruence |].
  cbn [length Nat.eqb].
  destruct (measureLines createElement (l :: ls) fontSize fontWeight 0 m) as [w m'].
  cbn [fst size_width size_height].
  repeat split; try apply isInteger_ceil.
  unfold ceil.
  eapply Qle_trans; [apply (Q.le_max_r w 35) | apply Qle_ceiling].
Qed.

End Sizes.

Section Dimensions.
Variable cleanTextContent : string -> string.
Variable createElement : option Element.

Ltac open_compute depth :=
  unfold computeNodeDimensions;
  destruct depth as [| [| depth]]; cbv beta iota zeta;
  match goal with
  | |- context [measureTextSize ?c ?l ?f ?w ?m] =>
      let H := fresh "Hsize" in
      pose proof (measureTextSize_ceiled c l f w m
                    (wrapText_no_limit_nonempty _ _)) as H;
      cbv zeta in H;
      destruct (measureTextSize c l f w m) as [size m'];
      cbn [fst] in H; destruct H as (Hw & Hh & H35)
  end;
  cbn [fst width height minWidth padding lines].

Lemma computeNodeDimensions_floors depth text m :
  let r := fst (computeNodeDimensions cleanTextContent createElement depth text m) in
  minWidth r = match depth with 0%nat => 40 | 1%nat => 38 | _ => 20 end /\
  minWidth r <= width r /\
  2 * inject_Z (Z.of_nat (parseInt (getFontSizeByDepth depth))) <= height r.
Proof.
  cbv zeta. open_compute depth.
  all: split; [reflexivity |]; split; [apply Q.le_max_r |].
  all: match goal with
       | |- _ <= Qmax ?a ?b => pose proof (Q.le_max_r a b) as Hm
       end.
  all: eapply Qle_trans; [| exact Hm].
  all: apply Qle_lteq; right; ring.
Qed.

Lemma computeNodeDimensions_lines depth text m :
  lines (fst (computeNodeDimensions cleanTextContent createElement depth text m))
  = wrapText (cleanTextContent text) None
      (inject_Z (Z.of_nat (parseInt (getFontSizeByDepth depth)))).
Proof. open_compute depth; reflexivity. Qed.

Lemma computeNodeDimensions_rounding depth text m :
  let r := fst (computeNodeDimensions cleanTextContent createElement depth text m) in
  isInteger (height r) /\
  (width r <= 168 + 2 * padding r -> isInteger (width r)).
Proof.
  cbv zeta. open_compute depth.
  all: split;
    [ apply isInteger_max;
      [ apply isInteger_plus; [exact Hh | now exists 36%Z + now exists 32%Z + now exists 20%Z]
      | now exists 40%Z + now exists 36%Z + now exists 30%Z ] |].
  all: intros Hle.
  all: match type of Hle with
       | Qmax (?tw + ?p2 + Qmax 8 ?b) ?mw <= _ =>
           pose proof (Q.le_max_l (tw + p2 + Qmax 8 b) mw) as H1;
           pose proof (Q.le_max_l 8 b) as H2;
           pose proof (Q.le_max_r 8 b) as H3;
           assert (Qmax 8 b == 8) as E8 by (apply Q.max_l; lra);
           assert (Qmax (tw + p2 + Qmax 8 b) mw == tw + p2 + 8) as E
             by (rewrite E8; apply Q.max_l; lra);
           apply (isInteger_Qeq (tw + p2 + 8)); [now symmetry |];
           apply isInteger_plus; [apply isInteger_plus; [exact Hw |] |]
       end.
  all: first [now exists 8%Z | now exists 36%Z | now exists 32%Z | now exists 20%Z].
Qed.

End Dimensions.

(** C4. On every reachable measurer, for every depth and text (the empty
    text included), the box returned by [getNodeDimensions] is at least as
    wide as the minimum width of its depth (40, 38 or 20) and at least as
    high as twice the font size of its depth. *)
Theorem getNodeDimensions_floors
    (cleanTextContent : string -> string) (createElement : option Element)
    (m : Measurer) (depth : nat) (text : string) :
  reachable cleanTextContent createElement m ->
  let r := fst (getNodeDimensions cleanTextContent createElement depth text m) in
  minWidth r = match depth with 0%nat => 40 | 1%nat => 38 | _ => 20 end /\
  minWidth r <= width r /\
  2 * inject_Z (Z.of_nat (parseInt (getFontSizeByDepth depth))) <= height r.
Proof.
  intros Hr; cbv zeta.
  destruct (getNodeDimensions_computed cleanTextContent createElement depth text m
              (reachable_cacheSound _ _ _ Hr)) as [m0 ->].
  apply computeNodeDimensions_floors.
Qed.

Lemma getNodeDimensions_floors_witness :
  let r := fst (getNodeDimensions MindmapUtils.cleanTextContent None 0 "" create) in
  minWidth r = 40 /\ minWidth r <= width r /\
  2 * inject_Z (Z.of_nat (parseInt (getFontSizeByDepth 0))) <= height r.
Proof.
  apply (getNodeDimensions_floors MindmapUtils.cleanTextContent None create 0 "").
  apply reachable_create.
Defined.


(** [wrapText] on its own maps only the empty string to [[""]]: blank text
    reaches it unchanged unless [cleanTextContent] empties it. *)
Example wrapText_keeps_blank_text :
  wrapText "  " None 15 = ["  "%string] /\ wrapText "" None 15 = [""%string].
Proof. split; reflexivity. Qed.







(** C7 does not hold as stated: for a text size wider than 160 the 5% safety
    buffer is added after the rounding, and the final width keeps its
    fraction.  On the fallback path eighteen characters at depth 2 measure
    18 * 9.3 = 167.4, ceiled to 168, and the width is 168 + 20 + 8.4; on the
    measuring path a rectangle 161 wide gives 161 + 20 + 8.05. *)
Lemma getNodeDimensions_width_not_integer :
  ~ isInteger (width (fst (getNodeDimensions MindmapUtils.cleanTextContent None
                             2 "aaaaaaaaaaaaaaaaaa" create))) /\
  ~ isInteger (width (fst (getNodeDimensions MindmapUtils.cleanTextContent
                             (Some (fun _ _ _ => {| size_width := 161; size_height := 18 |}))
                             2 "wide" create))).
Proof.
  split.
  - match goal with
    | |- ~ isInteger ?w => let v := eval vm_compute in w in change w with v
    end.
    intros [z Hz]. unfold Qeq in Hz; simpl in Hz. lia.
  - match goal with
    | |- ~ isInteger ?w => let v := eval vm_compute in w in change w with v
    end.
    intros [z Hz]. unfold Qeq in Hz; simpl in Hz. lia.
Qed.

(** C7, amended.  [Math.ceil] is applied to the measured text size, on both
    measurement paths: for at least one line the text width and height are
    whole numbers.  Of the final box the height is a whole number, and the
    width is a whole number whenever it is at most [168 + 2 * padding], that
    is whenever the ceiled text width is at most 160 and the safety buffer is
    the constant 8. *)
Theorem getNodeDimensions_rounding
    (cleanTextContent : string -> string) (createElement : option Element)
    (m : Measurer) (depth : nat) (text : string) :
  reachable cleanTextContent createElement m ->
  let r := fst (getNodeDimensions cleanTextContent createElement depth text m) in
  (forall line rest fontSize fontWeight m0,
      let size := fst (measureTextSize createElement (line :: rest) fontSize fontWeight m0) in
      isInteger (size_width size) /\ isInteger (size_height size)) /\
  isInteger (height r) /\
  (width r <= 168 + 2 * padding r -> isInteger (width r)).
Proof.
  intros Hr; cbv zeta. split.
  - intros line rest fontSize fontWeight m0.
    destruct (measureTextSize_ceiled createElement (line :: rest) fontSize fontWeight m0)
      as (Hw & Hh & _); [discriminate | now split].
  - destruct (getNodeDimensions_computed cleanTextContent createElement depth text m
                (reachable_cacheSound _ _ _ Hr)) as [m0 ->].
    apply computeNodeDimensions_rounding.
Qed.

Lemma getNodeDimensions_rounding_witness :
  let r := fst (getNodeDimensions MindmapUtils.cleanTextContent None 1 "Topic" create) in
  isInteger (height r) /\ isInteger (width r).
Proof.
  pose proof (getNodeDimensions_rounding MindmapUtils.cleanTextContent None create 1 "Topic"
                (reachable_create _ _)) as (_ & Hh & Hw).
  split; [exact Hh |].
  apply Hw. vm_compute. discriminate.
Defined.

End TextMeasurerFacts.

(** ** Text wrapping *)

Module WrapTextFacts.
Import Js JsFacts TextMeasurer Notions.

Lemma eqb_sep (c sep : ascii) : Ascii.eqb c sep = true -> c = sep.
Proof. apply Ascii.eqb_eq. Qed.

Lemma split_without_separator (sep : ascii) (s : string) :
  includesChar sep s = false -> split sep s = [s].
Proof.
  induction s as [| c s IH]; simpl; [reflexivity |].
  destruct (Ascii.eqb c sep); [discriminate |].
  intros H. now rewrite (IH H).
Qed.

Lemma split_cons_shape (sep : ascii) (s : string) :
  exists w ws, split sep s = w :: ws.
Proof.
  destruct (split sep s) as [| w ws] eqn:E; [| now exists w, ws].
  now apply TextMeasurerFacts.split_nonempty in E.
Qed.

Lemma join_cons_cons (sep w w' : string) (ws : list string) :
  join sep (w :: w' :: ws) = w +:+ sep +:+ join sep (w' :: ws).
Proof. reflexivity. Qed.

(** Joining the pieces of a split with the separator restores the text. *)
Lemma join_split (sep : ascii) (s : string) :
  join (String sep EmptyString) (split sep s) = s.
Proof.
  induction s as [| c s IH]; [reflexivity |].
  cbn [split].
  destruct (split_cons_shape sep s) as (w & ws & E). rewrite E in *.
  destruct (Ascii.eqb c sep) eqn:Hc.
  - apply eqb_sep in Hc as ->.
    rewrite join_cons_cons, IH. reflexivity.
  - destruct ws as [| w' ws].
    + cbn [join] in *. now rewrite IH.
    + rewrite join_cons_cons in IH. rewrite join_cons_cons, <- IH. reflexivity.
Qed.

Lemma split_pieces_without_separator (sep : ascii) (s : string) :
  Forall (fun piece => includesChar sep piece = false) (split sep s).
Proof.
  induction s as [| c s IH]; cbn [split].
  - now repeat constructor.
  - destruct (Ascii.eqb c sep) eqn:Hc.
    + constructor; [reflexivity | exact IH].
    + destruct (split sep s) as [| w ws]; [now repeat constructor; simpl; rewrite Hc |].
      inversion IH; subst. constructor; [| assumption].
      simpl. now rewrite Hc.
Qed.

(** C9. Without a maximum width and for non-empty text, [wrapText] returns
    the pieces of the text between its line breaks, in order: the text
    itself when it has no line break; no returned line holds a line break,
    and joining the lines with a line break restores the text. *)
Theorem wrapText_unbounded (text : string) (fontSize : Q) :
  text <> EmptyString ->
  let result := wrapText text None fontSize in
  result = split "010"%char text /\
  (includesChar "010"%char text = false -> result = [text]) /\
  Forall (fun line => includesChar "010"%char line = false) result /\
  join (String "010"%char EmptyString) result = text.
Proof.
  intros Hne; cbv zeta.
  assert (wrapText text None fontSize = split "010"%char text) as E.
  { unfold wrapText. destruct text as [| c s]; [congruence |].
    cbn [truthy negb String.length Nat.eqb orb].
    destruct (includesChar "010"%char (String c s)) eqn:Hnl; [reflexivity |].
    now rewrite split_without_separator. }
  rewrite E. split; [reflexivity |]. split; [apply split_without_separator |].
  split; [apply split_pieces_without_separator | apply join_split].
Qed.

Lemma wrapText_unbounded_witness :
  wrapText "one line" None 15 = ["one line"%string] /\
  wrapText (String "a" (String "010" (String "b" EmptyString))) None 15
    = ["a"%string; "b"%string].
Proof.
  split.
  - apply (wrapText_unbounded "one line" 15); [discriminate | reflexivity].
  - pose proof (wrapText_unbounded
                  (String "a" (String "010" (String "b" EmptyString))) 15) as H.
    cbv zeta in H. destruct H as [H _]; [discriminate |].
    rewrite H. reflexivity.
Defined.

Lemma join_snoc (sep w : string) (seg : list string) :
  seg <> [] -> join sep (seg ++ [w]) = join sep seg +:+ sep +:+ w.
Proof.
  induction seg as [| x seg IH]; [congruence |]. intros _.
  destruct seg as [| y seg]; [reflexivity |].
  cbn [app]. rewrite join_cons_cons.
  change (y :: seg ++ [w]) with ((y :: seg) ++ [w]).
  rewrite IH by discriminate.
  rewrite join_cons_cons, !append_assoc. reflexivity.
Qed.

Lemma truthy_append (a b : string) : truthy a = true -> truthy (a +:+ b) = true.
Proof. now destruct a. Qed.

Lemma truthy_false (a : string) : truthy a = false -> a = EmptyString.
Proof. now destruct a. Qed.

Section Loop.
Variable fits : string -> bool.
Variable text : string.

(** Loop invariant of [wrapText]: the finished lines are made of whole
    words, and a non-empty current line is the join of the last words
    consumed. *)
Lemma wrapWords_whole (words : list string) :
  forall (consumed lines : list string) (currentLine : string),
    split " "%char text = consumed ++ words ->
    Forall (wholeWords text) lines ->
    (truthy currentLine = true ->
     exists before seg,
       consumed = before ++ seg /\ seg <> [] /\ currentLine = join " " seg) ->
    Forall (wholeWords text) (fst (wrapWords fits words lines currentLine)) /\
    (truthy (snd (wrapWords fits words lines currentLine)) = true ->
     wholeWords text (snd (wrapWords fits words lines currentLine))).
Proof.
  induction words as [| word rest IH]; intros consumed lines cur Hall Hlines Hcur.
  - cbn [wrapWords fst snd]. split; [exact Hlines |].
    intros Ht. destruct (Hcur Ht) as (before & seg & -> & _ & ->).
    exists seg. split; [| reflexivity].
    exists before, []. now rewrite Hall, <- !app_assoc.
  - cbn [wrapWords].
    assert (split " "%char text = (consumed ++ [word]) ++ rest) as Hall'
      by now rewrite <- app_assoc.
    destruct (fits (if truthy cur then cur +:+ " " +:+ word else word)).
    + apply (IH (consumed ++ [word])); [exact Hall' | exact Hlines |].
      intros _. destruct (truthy cur) eqn:Ht.
      * destruct (Hcur eq_refl) as (before & seg & -> & Hne & ->).
        exists before, (seg ++ [word]).
        split; [now rewrite app_assoc |].
        split; [now destruct seg |].
        now rewrite join_snoc.
      * exists consumed, [word]. repeat split; discriminate.
    + apply (IH (consumed ++ [word])); [exact Hall' | |].
      * destruct (truthy cur) eqn:Ht; [| exact Hlines].
        apply Forall_app; split; [exact Hlines |].
        constructor; [| constructor].
        destruct (Hcur eq_refl) as (before & seg & -> & _ & ->).
        exists seg. split; [| reflexivity].
        exists before, (word :: rest). now rewrite Hall, <- app_assoc.
      * intros _. exists consumed, [word]. repeat split; discriminate.
Qed.

Lemma wrapWords_lines_grow (words : list string) :
  forall (lines : list string) (currentLine : string),
    lines <> [] -> fst (wrapWords fits words lines currentLine) <> [].
Proof.
  induction words as [| word rest IH]; intros lines cur Hne; cbn [wrapWords];
    [exact Hne |].
  destruct (fits _); [now apply IH |].
  apply IH. destruct (truthy cur); [now destruct lines | exact Hne].
Qed.

Lemma wrapWords_keeps_text (words : list string) :
  forall (lines : list string) (currentLine : string),
    truthy currentLine = true ->
    fst (wrapWords fits words lines currentLine) <> [] \/
    truthy (snd (wrapWords fits words lines currentLine)) = true.
Proof.
  induction words as [| word rest IH]; intros lines cur Ht; cbn [wrapWords].
  - now right.
  - rewrite Ht. destruct (fits (cur +:+ " " +:+ word)).
    + apply IH. now apply truthy_append.
    + left. apply wrapWords_lines_grow. now destruct lines.
Qed.

(** The loop ends with no line at all only if every word was empty. *)
Lemma wrapWords_nothing (words : list string) :
  forall (lines : list string) (currentLine : string),
    fst (wrapWords fits words lines currentLine) = [] ->
    truthy (snd (wrapWords fits words lines currentLine)) = false ->
    Forall (fun w => w = EmptyString) words.
Proof.
  induction words as [| word rest IH]; intros lines cur Hl Hc; [constructor |].
  cbn [wrapWords] in Hl, Hc.
  destruct (fits (if truthy cur then cur +:+ " " +:+ word else word)).
  - constructor; [| exact (IH _ _ Hl Hc)].
    destruct (truthy cur) eqn:Ht.
    + destruct (wrapWords_keeps_text rest lines (cur +:+ " " +:+ word)
                  (truthy_append _ _ Ht)); congruence.
    + destruct (truthy word) eqn:Hw; [| now apply truthy_false].
      destruct (wrapWords_keeps_text rest lines word Hw); congruence.
  - constructor; [| exact (IH _ _ Hl Hc)].
    destruct (truthy word) eqn:Hw; [| now apply truthy_false].
    destruct (wrapWords_keeps_text rest
                (if truthy cur then lines ++ [cur] else lines) word Hw); congruence.
Qed.

End Loop.

Lemma split_all_empty (text : string) :
  Forall (fun w => w = EmptyString) (split " "%char text) ->
  text = spaces (String.length text).
Proof.
  induction text as [| c s IH]; cbn [split String.length spaces]; [reflexivity |].
  destruct (Ascii.eqb c " "%char) eqn:Hc.
  - apply eqb_sep in Hc as ->. intros H. inversion H; subst.
    f_equal. now apply IH.
  - destruct (split " "%char s); intros H; inversion H; discriminate.
Qed.

Lemma split_spaces (n : nat) :
  split " "%char (spaces n) = replicate (S n) EmptyString.
Proof. induction n as [| n IH]; [reflexivity |]. cbn [spaces split]. now rewrite IH. Qed.

Lemma join_replicate_empty (k : nat) :
  join " " (replicate (S k) EmptyString) = spaces k.
Proof.
  induction k as [| k IH]; [reflexivity |].
  change (replicate (S (S k)) EmptyString)
    with (EmptyString :: EmptyString :: replicate k EmptyString).
  rewrite join_cons_cons.
  change (EmptyString :: replicate k EmptyString) with (replicate (S k) EmptyString).
  now rewrite IH.
Qed.

Lemma substring_spaces (k n : nat) :
  String.substring 0 k (spaces n) = spaces (Nat.min k n).
Proof.
  revert n; induction k as [| k IH]; intros [| n]; simpl; try reflexivity.
  now rewrite IH.
Qed.

Lemma substring0_spaces (n : nat) (m : Number) :
  exists k, (k <= n)%nat /\ substring0 (spaces n) m = spaces k.
Proof.
  destruct m as [z | | |]; cbn [substring0].
  - exists (Nat.min (Z.to_nat z) n). split; [lia | apply substring_spaces].
  - now exists n.
  - exists 0%nat. split; [lia | reflexivity].
  - exists 0%nat. split; [lia | reflexivity].
Qed.

Lemma spaces_wholeWords (n k : nat) :
  (k <= n)%nat -> wholeWords (spaces n) (spaces k).
Proof.
  intros Hk. exists (replicate (S k) EmptyString).
  split; [| now rewrite join_replicate_empty].
  exists [], (replicate (n - k) EmptyString).
  rewrite split_spaces, app_nil_l, <- replicate_add. f_equal. lia.
Qed.

Lemma wholeWords_self (text : string) : wholeWords text text.
Proof.
  exists (split " "%char text). split; [| now rewrite join_split].
  exists [], []. now rewrite app_nil_r.
Qed.

(** C8. With a maximum width configured, every line returned by [wrapText]
    is made of whole words of the input: it is the join, by single spaces,
    of a run of consecutive space-separated words of the text, so no word
    is split across two lines. *)
Theorem wrapText_whole_words (text : string) (maxWidth fontSize : Q) :
  Forall (wholeWords text) (wrapText text (Some maxWidth) fontSize).
Proof.
  unfold wrapText.
  destruct (negb (truthy text) || (String.length text =? 0)%nat) eqn:Hempty.
  - assert (text = EmptyString) as ->.
    { destruct text; [reflexivity | discriminate]. }
    repeat constructor. apply wholeWords_self.
  - cbv zeta.
    set (maxChars := floorDiv maxWidth (fontSize * 0.62)).
    destruct (lengthLe (String.length text) maxChars).
    + repeat constructor. apply wholeWords_self.
    + set (fits := fun s : string => lengthLe (String.length s) maxChars).
      pose proof (wrapWords_whole fits text (split " "%char text) [] [] EmptyString
                    eq_refl (List.Forall_nil _)) as Hwhole.
      pose proof (wrapWords_nothing fits (split " "%char text) [] EmptyString) as Hnone.
      destruct (wrapWords fits (split " "%char text) [] EmptyString) as [lines cur].
      cbn [fst snd] in Hwhole, Hnone.
      destruct Hwhole as [Hlines Hcur]; [discriminate |].
      destruct (truthy cur) eqn:Ht.
      * assert (Forall (wholeWords text) (lines ++ [cur])) as Hall.
        { apply Forall_app. split; [exact Hlines |]. repeat constructor. now apply Hcur. }
        destruct (lines ++ [cur]) eqn:E; [now destruct lines |].
        exact Hall.
      * destruct lines as [| l ls]; [| exact Hlines].
        cbn [length Nat.ltb Nat.leb].
        repeat constructor.
        rewrite (split_all_empty text (Hnone eq_refl eq_refl)).
        destruct (substring0_spaces (String.length text) maxChars) as (k & Hk & ->).
        now apply spaces_wholeWords.
Qed.

(** The greedy packing on a fixture: at most [floor(50 / 6.2) = 8]
    characters per line. *)
Example wrapText_fixture :
  wrapText "hello world foo bar" (Some 50) 10
  = ["hello"%string; "world"%string; "foo bar"%string].
Proof. reflexivity. Qed.

End WrapTextFacts.

(** ** Overlap resolution *)

Module OverlapResolverFacts.
Import CoordinateConverter CoordinateConverterFacts OverlapResolver.

Lemma preorder_unfold (n : Node) :
  preorder n = ([], n) :: preorderForest 0 (children n).
Proof. destruct n; reflexivity. Qed.

Lemma preorderForest_child (p : Path) (n : Node) (cs : list Node) :
  forall (k i : nat) (c : Node),
    cs !! i = Some c -> In (p, n) (preorder c) ->
    In ((k + i)%nat :: p, n) (preorderForest k cs).
Proof.
  induction cs as [| c0 cs IH]; intros k i c Hi Hin; [discriminate |].
  cbn [preorderForest]. apply in_or_app.
  destruct i as [| i]; cbn in Hi.
  - injection Hi as ->. left.
    apply in_map_iff. exists (p, n). rewrite Nat.add_0_r. now split.
  - right. replace (k + S i)%nat with (S k + i)%nat by lia. now apply (IH _ _ c).
Qed.

(** Every node of the tree is listed by the pre-order traversal. *)
Lemma getNode_preorder (p : Path) :
  forall (root n : Node), getNode p root = Some n -> In (p, n) (preorder root).
Proof.
  induction p as [| i p IH]; intros root n H; rewrite preorder_unfold.
  - injection H as ->. now left.
  - right. cbn [getNode] in H.
    destruct (children root !! i) as [c |] eqn:Hc; [| discriminate].
    apply (preorderForest_child p n (children root) 0 i c Hc). now apply IH.
Qed.

Lemma insertByCenter_perm (x : Path * Node) (l : list (Path * Node)) :
  Permutation (insertByCenter x l) (x :: l).
Proof.
  induction l as [| y l IH]; cbn [insertByCenter]; [reflexivity |].
  destruct (Qle_bool _ _); [reflexivity |].
  rewrite IH. apply perm_swap.
Qed.

(** The vertical order lists the same nodes as the pre-order traversal. *)
Lemma verticalOrder_perm (root : Node) :
  Permutation (verticalOrder root) (preorder root).
Proof.
  unfold verticalOrder.
  induction (preorder root) as [| x l IH]; cbn [foldr]; [reflexivity |].
  rewrite insertByCenter_perm. now constructor.
Qed.

Lemma orderedPairs_complete {A : Type} (l : list A) (x y : A) :
  In x l -> In y l -> x <> y ->
  In (x, y) (orderedPairs l) \/ In (y, x) (orderedPairs l).
Proof.
  induction l as [| a l IH]; intros Hx Hy Hne; [contradiction |].
  cbn [orderedPairs].
  destruct Hx as [-> | Hx], Hy as [-> | Hy].
  - congruence.
  - left. apply in_or_app. left. now apply in_map.
  - right. apply in_or_app. left. now apply in_map.
  - destruct (IH Hx Hy Hne); [left | right]; apply in_or_app; now right.
Qed.

Lemma isPrefix_refl (p : Path) : isPrefix p p = true.
Proof. induction p as [| i p IH]; cbn; [reflexivity |]. now rewrite Nat.eqb_refl. Qed.

Lemma unrelated_sym (p q : Path) : unrelated p q = unrelated q p.
Proof. unfold unrelated. apply andb_comm. Qed.

Lemma unrelated_distinct (p q : Path) : unrelated p q = true -> p <> q.
Proof.
  intros H ->. unfold unrelated in H. rewrite isPrefix_refl in H. discriminate.
Qed.

(** A detection pass compares every pair of unrelated nodes, one way round
    or the other. *)
Lemma candidatePairs_complete (root : Node) (p q : Path) (n1 n2 : Node) :
  getNode p root = Some n1 -> getNode q root = Some n2 -> unrelated p q = true ->
  In (p, q) (candidatePairs root) \/ In (q, p) (candidatePairs root).
Proof.
  intros Hp Hq Hu.
  assert (forall r n, getNode r root = Some n -> In r (map fst (verticalOrder root)))
    as Hlisted.
  { intros r n Hr. apply in_map_iff. exists (r, n). split; [reflexivity |].
    apply (Permutation_in _ (Permutation_sym (verticalOrder_perm root))).
    now apply getNode_preorder. }
  unfold candidatePairs.
  destruct (orderedPairs_complete _ p q (Hlisted _ _ Hp) (Hlisted _ _ Hq)
              (unrelated_distinct _ _ Hu)) as [H | H]; [left | right];
    apply filter_In; (split; [exact H |]); cbn [fst snd];
    [exact Hu | now rewrite unrelated_sym].
Qed.

Lemma resolvePair_quiet (minGap : Q) (pq : Path * Path) (root : Node)
    (trail : list Adjustment) :
  snd (resolvePair minGap pq (root, trail)) = [] ->
  resolvePair minGap pq (root, trail) = (root, trail) /\
  forall upper lower,
    getNode (fst pq) root = Some upper -> getNode (snd pq) root = Some lower ->
    isOverlapping (center upper) (height upper) (center lower) (height lower) minGap
    = false.
Proof.
  unfold resolvePair.
  destruct (getNode (fst pq) root) as [u |]; [| now split].
  destruct (getNode (snd pq) root) as [l |]; [| now split].
  destruct (isOverlapping _ _ _ _ _) eqn:Ho; cbn [snd].
  - intros H. now destruct trail.
  - intros _. split; [reflexivity |]. intros ? ? [= <-] [= <-]. exact Ho.
Qed.

Lemma resolvePair_trail (minGap : Q) (pq : Path * Path) (st : Node * list Adjustment) :
  snd (resolvePair minGap pq st) = [] -> snd st = [].
Proof.
  destruct st as [root trail]. unfold resolvePair.
  destruct (getNode (fst pq) root); [| easy].
  destruct (getNode (snd pq) root); [| easy].
  destruct (isOverlapping _ _ _ _ _); [| easy].
  cbn [snd]. now destruct trail.
Qed.

Lemma pass_trail_grows (minGap : Q) (pairs : list (Path * Path)) :
  forall (root : Node) (trail : list Adjustment),
    trail <> [] ->
    snd (foldl (fun st pq => resolvePair minGap pq st) (root, trail) pairs) <> [].
Proof.
  induction pairs as [| pq pairs IH]; intros root trail Hne; cbn [foldl];
    [exact Hne |].
  pose proof (resolvePair_trail minGap pq (root, trail)) as Ht.
  destruct (resolvePair minGap pq (root, trail)) as [root' trail'].
  apply IH. intros ->. now apply Hne, Ht.
Qed.

(** A pass that records no adjustment has moved nothing and has found every
    compared pair clear. *)
Lemma pass_quiet (minGap : Q) (pairs : list (Path * Path)) :
  forall (root : Node) (trail : list Adjustment),
    snd (foldl (fun st pq => resolvePair minGap pq st) (root, trail) pairs) = [] ->
    fst (foldl (fun st pq => resolvePair minGap pq st) (root, trail) pairs) = root /\
    forall pq upper lower,
      In pq pairs ->
      getNode (fst pq) root = Some upper -> getNode (snd pq) root = Some lower ->
      isOverlapping (center upper) (height upper) (center lower) (height lower) minGap
      = false.
Proof.
  induction pairs as [| pq pairs IH]; intros root trail H; cbn [foldl] in *.
  - split; [reflexivity | contradiction].
  - assert (snd (resolvePair minGap pq (root, trail)) = []) as Hq.
    { destruct (resolvePair minGap pq (root, trail)) as [root' [| a trail']];
        [reflexivity |].
      now apply pass_trail_grows in H. }
    destruct (resolvePair_quiet minGap pq root trail Hq) as [E Hclear].
    rewrite E in H |- *.
    destruct (IH root trail H) as [Hroot Hrest].
    split; [exact Hroot |].
    intros pq' upper lower [<- | Hin]; [apply Hclear | now apply Hrest].
Qed.

(** A converged resolution ends on a tree whose own detection pass records
    no adjustment. *)
Lemma resolveFrom_converged (cap : nat) (minGap : Q) :
  forall (root : Node) (trail : list Adjustment),
    converged (resolveFrom cap minGap root trail) = true ->
    exists last,
      snd (detectionPass minGap last) = [] /\
      tree (resolveFrom cap minGap root trail) = fst (detectionPass minGap last).
Proof.
  induction cap as [| cap IH]; intros root trail H; cbn [resolveFrom] in *.
  - discriminate.
  - destruct (detectionPass minGap root) as [root' made] eqn:E.
    destruct made as [| a made].
    + exists root. now rewrite E.
    + now apply IH.
Qed.

(** C1. When [resolveOverlaps] reports convergence, no two nodes of the
    resulting tree that are unrelated (neither is the other nor an ancestor
    of the other) overlap: [isOverlapping] on their centers and heights with
    the configured minimum gap is [false]. *)
Theorem resolveOverlaps_no_overlap (iterationCap : nat) (root : Node) (minGap : Q)
    (p q : Path) (n1 n2 : Node) :
  converged (resolveOverlaps iterationCap root minGap) = true ->
  getNode p (tree (resolveOverlaps iterationCap root minGap)) = Some n1 ->
  getNode q (tree (resolveOverlaps iterationCap root minGap)) = Some n2 ->
  unrelated p q = true ->
  isOverlapping (center n1) (height n1) (center n2) (height n2) minGap = false.
Proof.
  unfold resolveOverlaps. intros Hconv Hp Hq Hu.
  destruct (resolveFrom_converged _ _ _ _ Hconv) as (last & Hnone & Htree).
  destruct (pass_quiet minGap (candidatePairs last) last [] Hnone) as [Hsame Hclear].
  unfold detectionPass in Htree. rewrite Hsame in Htree. rewrite Htree in Hp, Hq.
  destruct (candidatePairs_complete last p q n1 n2 Hp Hq Hu) as [Hin | Hin].
  - exact (Hclear (p, q) n1 n2 Hin Hp Hq).
  - rewrite isOverlapping_sym. exact (Hclear (q, p) n2 n1 Hin Hq Hp).
Qed.

Lemma resolveOverlaps_no_overlap_witness :
  let root := mkNode 0 10 [mkNode 0 20 [mkNode 0 10 []; mkNode 5 10 []];
                           mkNode 10 20 []; mkNode 12 10 [mkNode 12 10 []]] in
  let r := resolveOverlaps 10 root 5 in
  converged r = true /\
  match getNode [1%nat] (tree r), getNode [2%nat] (tree r) with
  | Some n1, Some n2 =>
      center n1 == 35 /\ center n2 == 55 /\
      isOverlapping (center n1) (height n1) (center n2) (height n2) 5 = false
  | _, _ => False
  end.
Proof.
  intros root r.
  assert (converged r = true) as Hc by (vm_compute; reflexivity).
  split; [exact Hc |].
  destruct (getNode [1%nat] (tree r)) as [n1 |] eqn:E1;
    [| vm_compute in E1; discriminate].
  destruct (getNode [2%nat] (tree r)) as [n2 |] eqn:E2;
    [| vm_compute in E2; discriminate].
  split; [| split].
  - pose proof E1 as E. vm_compute in E. injection E as <-. reflexivity.
  - pose proof E2 as E. vm_compute in E. injection E as <-. reflexivity.
  - exact (resolveOverlaps_no_overlap 10 root 5 [1%nat] [2%nat] n1 n2
             Hc E1 E2 eq_refl).
Defined.

(** Before resolution the same two siblings do overlap. *)
Example overlap_before_resolution :
  isOverlapping 10 20 12 10 5 = true.
Proof. reflexivity. Qed.

End OverlapResolverFacts.

(** ** Further properties of the coordinate converter *)

Module CoordinateConverterMore.
Import CoordinateConverter CoordinateConverterFacts.

Lemma bool_eq_iff (a b : bool) : (a = true <-> b = true) -> a = b.
Proof. destruct a, b; intros [H1 H2]; auto; symmetry; auto. Qed.

Lemma isOverlapping_lt_iff c1 h1 c2 h2 gap :
  isOverlapping c1 h1 c2 h2 gap = true <->
  (c2 - h2 / 2) - (c1 + h1 / 2) < gap /\ (c1 - h1 / 2) - (c2 + h2 / 2) < gap.
Proof.
  rewrite isOverlapping_true_iff. split.
  - intros H. split; apply Qnot_le_lt; intros Hle; apply H; [left | right]; lra.
  - intros [H1 H2] [H | H]; lra.
Qed.

(** X1. Two nodes overlap exactly when the distance between their centers
    is below half the sum of their heights plus the gap. *)
Theorem isOverlapping_vertical_distance (c1 h1 c2 h2 gap : Q) :
  isOverlapping c1 h1 c2 h2 gap = true <->
  getVerticalDistance c1 c2 < (h1 + h2) / 2 + gap.
Proof.
  rewrite isOverlapping_lt_iff. unfold getVerticalDistance.
  rewrite Qabs_Qlt_condition.
  assert ((h1 + h2) / 2 == h1 / 2 + h2 / 2) as -> by field.
  split; intros [H1 H2]; split; lra.
Qed.

(** X2. When the first node is the upper one (its center is not below the
    second's), the nodes overlap exactly when [calculateActualGap] is below
    the required gap. *)
Theorem isOverlapping_actual_gap (c1 h1 c2 h2 gap : Q) :
  c1 <= c2 ->
  (isOverlapping c1 h1 c2 h2 gap = true <-> calculateActualGap c1 h1 c2 h2 < gap).
Proof.
  intros Hle. rewrite isOverlapping_lt_iff. unfold calculateActualGap; cbv zeta.
  split; [intros [H _]; exact H | intros H; split; lra].
Qed.

Lemma isOverlapping_actual_gap_witness :
  isOverlapping 75 176 185 40 10 = true <-> calculateActualGap 75 176 185 40 < 10.
Proof. apply (isOverlapping_actual_gap 75 176 185 40 10). discriminate. Defined.

(** X3. The overlap test does not depend on the order of the two nodes nor
    on where the pair sits: swapping the nodes or moving both centers by the
    same amount gives the same answer. *)
Theorem isOverlapping_swap_shift (c1 h1 c2 h2 gap d : Q) :
  isOverlapping c2 h2 c1 h1 gap = isOverlapping c1 h1 c2 h2 gap /\
  isOverlapping (c1 + d) h1 (c2 + d) h2 gap = isOverlapping c1 h1 c2 h2 gap.
Proof.
  split; apply bool_eq_iff; rewrite !isOverlapping_lt_iff;
    split; intros [H1 H2]; split; lra.
Qed.

(** X4. Asking for a larger gap never clears an overlap: a pair that
    overlaps for [gap] overlaps for every [gap' >= gap]. *)
Theorem isOverlapping_gap_monotone (c1 h1 c2 h2 gap gap' : Q) :
  gap <= gap' ->
  isOverlapping c1 h1 c2 h2 gap = true ->
  isOverlapping c1 h1 c2 h2 gap' = true.
Proof.
  intros Hle. rewrite !isOverlapping_lt_iff. intros [H1 H2]. split; lra.
Qed.

Lemma isOverlapping_gap_monotone_witness :
  isOverlapping 100 50 120 50 25 = true.
Proof.
  apply (isOverlapping_gap_monotone 100 50 120 50 0 25); [discriminate | reflexivity].
Defined.

(** X5. [toLayoutX] is also a right inverse of [toCanvasY]: from a top edge
    to the center and back gives the top edge. *)
Theorem toCanvasY_toLayoutX (canvasY h o : Q) :
  toCanvasY (toLayoutX canvasY h o) h o == canvasY.
Proof. unfold toCanvasY, toLayoutX. field. Qed.

(** X6. The overlap test with gap 0 agrees with the render-space
    rectangles of two nodes drawn with the same offsets: it holds exactly
    when the top edge of each [getNodeBounds] rectangle lies strictly above
    the bottom edge of the other.  For nodes of positive height that is
    exactly when the vertical extents of the rectangles share a segment of
    positive length.  (A node of height 0 lying inside the extent of another
    overlaps it, though the extents share one point only.) *)
Theorem isOverlapping_bounds (x1 y1 w1 h1 x2 y2 w2 h2 offsetX offsetY : Q) :
  let b1 := getNodeBounds (toCanvasX y1 offsetX) (toCanvasY x1 h1 offsetY) w1 h1 in
  let b2 := getNodeBounds (toCanvasX y2 offsetX) (toCanvasY x2 h2 offsetY) w2 h2 in
  (isOverlapping x1 h1 x2 h2 0 = true <->
   by_ b1 < bbottom b2 /\ by_ b2 < bbottom b1) /\
  (0 < h1 -> 0 < h2 ->
   (isOverlapping x1 h1 x2 h2 0 = true <->
    exists p q, p < q /\
      by_ b1 <= p /\ q <= bbottom b1 /\ by_ b2 <= p /\ q <= bbottom b2)) /\
  isOverlapping 5 0 5 10 0 = true.
Proof.
  cbv zeta. rewrite !isOverlapping_lt_iff.
  unfold getNodeBounds, toCanvasY; cbn [by_ bbottom].
  assert (h1 == h1 / 2 + h1 / 2) as E1 by field.
  assert (h2 == h2 / 2 + h2 / 2) as E2 by field.
  split; [| split].
  - split; intros [H1 H2]; split; lra.
  - intros Hh1 Hh2. split.
    + intros [H1 H2].
      exists (Qmax (x1 + offsetY - h1 / 2) (x2 + offsetY - h2 / 2)),
             (Qmin (x1 + offsetY - h1 / 2 + h1) (x2 + offsetY - h2 / 2 + h2)).
      split; [| split; [apply Q.le_max_l | split; [apply Q.le_min_l |
               split; [apply Q.le_max_r | apply Q.le_min_r]]]].
      apply Q.max_lub_lt; apply Q.min_glb_lt; lra.
    + intros (p & q & Hpq & Ha & Hb & Hc & Hd). split; lra.
  - split; reflexivity.
Qed.

Lemma isOverlapping_bounds_witness :
  isOverlapping 100 40 120 60 0 = true <->
  exists p q, p < q /\
    by_ (getNodeBounds (toCanvasX 0 0) (toCanvasY 100 40 0) 80 40) <= p /\
    q <= bbottom (getNodeBounds (toCanvasX 0 0) (toCanvasY 100 40 0) 80 40) /\
    by_ (getNodeBounds (toCanvasX 200 0) (toCanvasY 120 60 0) 90 60) <= p /\
    q <= bbottom (getNodeBounds (toCanvasX 200 0) (toCanvasY 120 60 0) 90 60).
Proof.
  apply (isOverlapping_bounds 100 0 80 40 120 200 90 60 0 0); reflexivity.
Defined.

End CoordinateConverterMore.

(** ** Further properties of text wrapping *)

Module WrapTextMore.
Import Js JsFacts TextMeasurer Notions WrapTextFacts.

(** X7. [wrapText] never returns an empty array, with or without a maximum
    width: the [lines.length === 0] branch of [measureTextSize] is never
    reached from it. *)
Theorem wrapText_never_empty (text : string) (maxWidth : option Q) (fontSize : Q) :
  wrapText text maxWidth fontSize <> [].
Proof.
  unfold wrapText.
  destruct (negb (truthy text) || (String.length text =? 0)%nat); [discriminate |].
  destruct maxWidth as [mw |].
  - cbv zeta. destruct (lengthLe _ _); [discriminate |].
    destruct (wrapWords _ _ _ _) as [lines cur].
    destruct (if truthy cur then lines ++ [cur] else lines) as [| l ls];
      cbn [length Nat.ltb Nat.leb]; discriminate.
  - destruct (includesChar _ text); [apply TextMeasurerFacts.split_nonempty | discriminate].
Qed.

Section Fit.
Variable fits : string -> bool.
Variable allWords : list string.

(** Loop invariant: a finished line fits or is one whole word. *)
Lemma wrapWords_fit (words : list string) :
  forall (lines : list string) (currentLine : string),
    (forall w, In w words -> In w allWords) ->
    Forall (fun l => fits l = true \/ In l allWords) lines ->
    (truthy currentLine = true -> fits currentLine = true \/ In currentLine allWords) ->
    Forall (fun l => fits l = true \/ In l allWords)
      (fst (wrapWords fits words lines currentLine)) /\
    (truthy (snd (wrapWords fits words lines currentLine)) = true ->
     fits (snd (wrapWords fits words lines currentLine)) = true \/
     In (snd (wrapWords fits words lines currentLine)) allWords).
Proof.
  induction words as [| word rest IH]; intros lines cur Hin Hlines Hcur.
  - cbn [wrapWords fst snd]. now split.
  - cbn [wrapWords].
    assert (forall w, In w rest -> In w allWords) as Hrest
      by (intros w Hw; apply Hin; now right).
    destruct (fits (if truthy cur then cur +:+ " " +:+ word else word)) eqn:Hfit.
    + apply IH; [exact Hrest | exact Hlines | intros _; now left].
    + apply IH; [exact Hrest | | intros _; right; apply Hin; now left].
      destruct (truthy cur) eqn:Ht; [| exact Hlines].
      apply Forall_app. split; [exact Hlines |].
      constructor; [now apply Hcur | constructor].
Qed.

End Fit.

Lemma length_substring_le (k : nat) (s : string) :
  (String.length (String.substring 0 k s) <= k)%nat.
Proof.
  revert s; induction k as [| k IH]; intros [| c s]; simpl; try lia.
  specialize (IH s). lia.
Qed.

Lemma substring0_fits (s : string) (m : Number) :
  substring0 s m = EmptyString \/
  lengthLe (String.length (substring0 s m)) m = true.
Proof.
  destruct m as [z | | |]; cbn [substring0 lengthLe]; auto.
  destruct (Z.to_nat z) as [| k] eqn:Hk.
  - left. now destruct s.
  - right. apply Z.leb_le.
    pose proof (length_substring_le (S k) s). lia.
Qed.

(** X8. With a maximum width, every returned line either fits the limit
    [floor(maxWidth / (0.62 * fontSize))] or is a single word of the text:
    only a word that is too long on its own exceeds the limit. *)
Theorem wrapText_lines_fit (text : string) (maxWidth fontSize : Q) :
  let maxChars := floorDiv maxWidth (fontSize * 0.62) in
  Forall (fun line =>
            lengthLe (String.length line) maxChars = true \/
            In line (split " "%char text))
    (wrapText text (Some maxWidth) fontSize).
Proof.
  cbv zeta. unfold wrapText.
  destruct (negb (truthy text) || (String.length text =? 0)%nat) eqn:Hempty.
  - assert (text = EmptyString) as -> by (destruct text; [reflexivity | discriminate]).
    constructor; [right; now left | constructor].
  - set (maxChars := floorDiv maxWidth (fontSize * 0.62)).
    destruct (lengthLe (String.length text) maxChars) eqn:Hfit.
    + constructor; [now left | constructor].
    + set (fits := fun s : string => lengthLe (String.length s) maxChars).
      pose proof (wrapWords_fit fits (split " "%char text) (split " "%char text)
                    [] EmptyString (fun w H => H) (List.Forall_nil _)) as Hinv.
      pose proof (wrapWords_nothing fits (split " "%char text) [] EmptyString) as Hnone.
      destruct (wrapWords fits (split " "%char text) [] EmptyString) as [lines cur].
      cbn [fst snd] in Hinv, Hnone.
      destruct Hinv as [Hlines Hcur]; [discriminate |].
      destruct (truthy cur) eqn:Ht.
      * assert (Forall (fun l => fits l = true \/ In l (split " "%char text))
                  (lines ++ [cur])) as Hall.
        { apply Forall_app. split; [exact Hlines |].
          constructor; [now apply Hcur | constructor]. }
        destruct (lines ++ [cur]) eqn:E; [now destruct lines |].
        exact Hall.
      * destruct lines as [| l ls]; [| exact Hlines].
        cbn [length Nat.ltb Nat.leb]. constructor; [| constructor].
        destruct (substring0_fits text maxChars) as [-> | Hs]; [| now left].
        right. specialize (Hnone eq_refl eq_refl).
        destruct (split_cons_shape " "%char text) as (w & ws & E).
        rewrite E in *. inversion Hnone; subst. now left.
Qed.

Lemma join_last_append (sep cur s : string) (lines : list string) :
  join sep (lines ++ [cur +:+ s]) = join sep (lines ++ [cur]) +:+ s.
Proof.
  induction lines as [| x lines IH]; [reflexivity |].
  destruct lines as [| y lines].
  - cbn [app]. rewrite !join_cons_cons. cbn [join].
    now rewrite !append_assoc.
  - cbn [app] in *. rewrite !join_cons_cons, IH, !append_assoc. reflexivity.
Qed.

Lemma join_app_cons (sep w : string) (front rest : list string) :
  front <> [] ->
  join sep (front ++ w :: rest) = join sep front +:+ sep +:+ join sep (w :: rest).
Proof.
  induction front as [| x front IH]; [congruence |]. intros _.
  destruct front as [| y front].
  - reflexivity.
  - cbn [app] in *. rewrite !join_cons_cons, IH by discriminate.
    now rewrite !append_assoc.
Qed.

Section Content.
Variable fits : string -> bool.

(** Loop invariant for single-spaced text: the finished lines and the
    current line, joined by spaces, are the words consumed so far. *)
Lemma wrapWords_content (words : list string) :
  Forall (fun w => w <> EmptyString) words ->
  forall (lines : list string) (currentLine : string),
    truthy currentLine = true ->
    truthy (snd (wrapWords fits words lines currentLine)) = true /\
    join " " (fst (wrapWords fits words lines currentLine)
              ++ [snd (wrapWords fits words lines currentLine)])
    = join " " ((lines ++ [currentLine]) ++ words).
Proof.
  induction words as [| word rest IH]; intros Hne lines cur Ht.
  - cbn [wrapWords fst snd]. now rewrite app_nil_r.
  - inversion Hne as [| ? ? Hword Hrest]; subst.
    cbn [wrapWords]. rewrite Ht.
    destruct (fits (cur +:+ " " +:+ word)).
    + destruct (IH Hrest lines (cur +:+ " " +:+ word) (truthy_append _ _ Ht))
        as [Ht' E].
      split; [exact Ht' |]. rewrite E.
      rewrite (join_app_cons " " word (lines ++ [cur]) rest) by now destruct lines.
      destruct rest as [| r rs].
      * rewrite app_nil_r, join_last_append. reflexivity.
      * rewrite (join_app_cons " " r (lines ++ [cur +:+ " " +:+ word]) rs)
          by now destruct lines.
        rewrite join_last_append, join_cons_cons, !append_assoc. reflexivity.
    + assert (truthy word = true) as Hw by (destruct word; [congruence | reflexivity]).
      destruct (IH Hrest (lines ++ [cur]) word Hw) as [Ht' E].
      split; [exact Ht' |]. rewrite E.
      now rewrite <- (app_assoc (lines ++ [cur]) [word] rest).
Qed.

End Content.

(** X9. Wrapping loses nothing of single-spaced text: when no word of the
    text is empty (no leading, trailing or doubled space), joining the
    returned lines with single spaces gives the text back. *)
Theorem wrapText_preserves_text (text : string) (maxWidth fontSize : Q) :
  Forall (fun w => w <> EmptyString) (split " "%char text) ->
  join " " (wrapText text (Some maxWidth) fontSize) = text.
Proof.
  intros Hwords. unfold wrapText.
  destruct (negb (truthy text) || (String.length text =? 0)%nat) eqn:Hempty.
  - assert (text = EmptyString) as -> by (destruct text; [reflexivity | discriminate]).
    reflexivity.
  - cbv zeta.
    set (maxChars := floorDiv maxWidth (fontSize * 0.62)).
    destruct (lengthLe (String.length text) maxChars); [reflexivity |].
    set (fits := fun s : string => lengthLe (String.length s) maxChars).
    pose proof (join_split " "%char text) as Hjoin.
    destruct (split " "%char text) as [| word rest] eqn:E;
      [now apply TextMeasurerFacts.split_nonempty in E |].
    pose proof (List.Forall_inv Hwords) as Hword.
    pose proof (List.Forall_inv_tail Hwords) as Hrest. cbv beta in Hword.
    assert (truthy word = true) as Hw by (destruct word; [congruence | reflexivity]).
    assert (wrapWords fits (word :: rest) [] EmptyString = wrapWords fits rest [] word)
      as -> by (cbn [wrapWords truthy]; now destruct (fits word)).
    destruct (wrapWords_content fits rest Hrest [] word Hw) as [Ht Hcontent].
    destruct (wrapWords fits rest [] word) as [lines cur].
    cbn [fst snd] in Ht, Hcontent. rewrite Ht.
    destruct (lines ++ [cur]) as [| l ls] eqn:El; [now destruct lines |].
    cbn [length Nat.ltb Nat.leb]. rewrite Hcontent. exact Hjoin.
Qed.

Lemma wrapText_preserves_text_witness :
  join " " (wrapText "hello world foo bar" (Some 50) 10) = "hello world foo bar"%string.
Proof.
  apply (wrapText_preserves_text "hello world foo bar" 50 10).
  repeat constructor; discriminate.
Defined.

End WrapTextMore.

(** ** Further properties of the text measurer: measuring *)

Module MeasuringMore.
Import Js JsFacts TextMeasurer Notions MoreNotions CacheFacts.

Lemma length_append (a b : string) :
  String.length (a +:+ b) = (String.length a + String.length b)%nat.
Proof. induction a as [| x a IH]; simpl; [reflexivity | now rewrite IH]. Qed.

Lemma append_inv_tail (a b s : string) : a +:+ s = b +:+ s -> a = b.
Proof.
  revert b; induction a as [| x a IH]; intros [| y b] H; cbn [String.append] in H.
  - reflexivity.
  - apply (f_equal String.length) in H. cbn [String.length] in H.
    rewrite length_append in H. lia.
  - apply (f_equal String.length) in H. cbn [String.length] in H.
    rewrite length_append in H. lia.
  - injection H as -> H. f_equal. now apply IH.
Qed.

Lemma textMeasurementKey_text (a b : string) (fontSize : nat) (fontWeight : string) :
  textMeasurementKey a fontSize fontWeight = textMeasurementKey b fontSize fontWeight ->
  a = b.
Proof. unfold textMeasurementKey. apply append_inv_tail. Qed.

Section Measuring.
Variable createElement : option Element.

#[local] Abbreviation initialize := (initializeTextMeasurementElement createElement).
#[local] Abbreviation measure := (measureTextAccurately createElement).

Lemma initialize_caches m :
  textMeasurementCache (initialize m) = textMeasurementCache m /\
  nodeDimensionsCache (initialize m) = nodeDimensionsCache m.
Proof.
  unfold initializeTextMeasurementElement.
  destruct (textMeasurementElement m); now split.
Qed.

Lemma initialize_idempotent m : initialize (initialize m) = initialize m.
Proof.
  unfold initializeTextMeasurementElement.
  destruct (textMeasurementElement m) eqn:E; cbn.
  - now rewrite E.
  - destruct createElement; reflexivity.
Qed.

(** The result of a measurement, read off the state before the call. *)
Lemma measure_result text fontSize fontWeight m :
  fst (measure text fontSize fontWeight m) =
  match textMeasurementCache m !! textMeasurementKey text fontSize fontWeight with
  | Some cached => cached
  | None =>
      match textMeasurementElement (initialize m) with
      | Some element =>
          {| size_width := size_width (element text fontSize fontWeight);
             size_height := size_height (element text fontSize fontWeight) |}
      | None => estimate text fontSize
      end
  end.
Proof.
  unfold measureTextAccurately; cbv zeta.
  destruct (textMeasurementCache m !! _); [reflexivity |].
  destruct (textMeasurementElement (initialize m)); reflexivity.
Qed.

(** The state after a measurement: the element is the initialized one, and
    the cache gains at most the entry of the measured text. *)
Lemma measure_state text fontSize fontWeight m :
  let m' := snd (measure text fontSize fontWeight m) in
  textMeasurementElement (initialize m') = textMeasurementElement (initialize m) /\
  forall key,
    textMeasurementCache m' !! key =
    match textMeasurementCache m !! key with
    | Some cached => Some cached
    | None =>
        if decide (key = textMeasurementKey text fontSize fontWeight)
        then match textMeasurementElement (initialize m) with
             | Some element =>
                 Some {| size_width := size_width (element text fontSize fontWeight);
                         size_height := size_height (element text fontSize fontWeight) |}
             | None => None
             end
        else None
    end.
Proof.
  cbv zeta. unfold measureTextAccurately; cbv zeta.
  destruct (textMeasurementCache m !! textMeasurementKey text fontSize fontWeight)
    eqn:Hc; cbn [snd].
  - split; [reflexivity |]. intros key.
    destruct (textMeasurementCache m !! key) eqn:Hk; [reflexivity |].
    destruct (decide _) as [-> |]; [congruence | reflexivity].
  - destruct (textMeasurementElement (initialize m)) as [element |] eqn:He; cbn [snd].
    + split.
      * rewrite ?He. reflexivity.
      * intros key. cbn [textMeasurementCache].
        rewrite (proj1 (initialize_caches m)).
        destruct (decide (key = textMeasurementKey text fontSize fontWeight)) as [-> | Hne].
        -- now rewrite lookup_insert_eq, Hc.
        -- rewrite lookup_insert_ne by congruence.
           now destruct (textMeasurementCache m !! key).
    + split; [now rewrite initialize_idempotent |].
      intros key. rewrite (proj1 (initialize_caches m)).
      destruct (textMeasurementCache m !! key); [reflexivity |].
      now destruct (decide _).
Qed.

(** Measuring one text does not change what measuring another, or the same,
    text answers afterwards. *)
Lemma measure_stable a b fontSize fontWeight m :
  fst (measure a fontSize fontWeight (snd (measure b fontSize fontWeight m)))
  = fst (measure a fontSize fontWeight m).
Proof.
  rewrite !measure_result.
  destruct (measure_state b fontSize fontWeight m) as [He Hc]. cbv zeta in He, Hc.
  rewrite He, Hc.
  destruct (textMeasurementCache m !! textMeasurementKey a fontSize fontWeight);
    [reflexivity |].
  destruct (decide _) as [Hk | Hk]; [| reflexivity].
  apply textMeasurementKey_text in Hk as ->.
  destruct (textMeasurementElement (initialize m)); reflexivity.
Qed.

Lemma measureLines_stable a lines fontSize fontWeight maxWidth m :
  fst (measure a fontSize fontWeight
         (snd (measureLines createElement lines fontSize fontWeight maxWidth m)))
  = fst (measure a fontSize fontWeight m).
Proof.
  revert maxWidth m; induction lines as [| line rest IH]; intros maxWidth m;
    cbn [measureLines]; [reflexivity |].
  pose proof (measure_stable a line fontSize fontWeight m) as Hs.
  destruct (measure line fontSize fontWeight m) as [ms m1].
  cbn [snd] in Hs. now rewrite IH.
Qed.

(** The running maximum of [measureTextSize] dominates its start value and
    every line, as measured before the loop. *)
Lemma measureLines_widest lines fontSize fontWeight :
  forall maxWidth m,
    maxWidth <= fst (measureLines createElement lines fontSize fontWeight maxWidth m) /\
    forall line,
      In line lines ->
      size_width (fst (measure line fontSize fontWeight m))
      <= fst (measureLines createElement lines fontSize fontWeight maxWidth m).
Proof.
  induction lines as [| l rest IH]; intros maxWidth m; cbn [measureLines].
  - split; [apply Qle_refl | contradiction].
  - pose proof (fun a => measure_stable a l fontSize fontWeight m) as Hs.
    destruct (measure l fontSize fontWeight m) as [ms m1] eqn:E.
    cbn [snd fst] in *.
    set (maxWidth' := if negb (Qle_bool (size_width ms) maxWidth)
                      then size_width ms else maxWidth).
    assert (maxWidth <= maxWidth' /\ size_width ms <= maxWidth') as [H1 H2].
    { subst maxWidth'. destruct (Qle_bool (size_width ms) maxWidth) eqn:Hb; cbn [negb].
      - apply Qle_bool_iff in Hb. split; [apply Qle_refl | exact Hb].
      - split; [| apply Qle_refl].
        destruct (Qlt_le_dec maxWidth (size_width ms)) as [Hlt | Hle];
          [now apply Qlt_le_weak |].
        apply Qle_bool_iff in Hle. congruence. }
    destruct (IH maxWidth' m1) as [Hmax Hrest].
    split; [now apply (Qle_trans _ maxWidth') |].
    intros line [<- | Hin].
    + apply (Qle_trans _ maxWidth'); [| exact Hmax].
      pose proof (f_equal fst E) as E1. cbn [fst] in E1. now rewrite E1.
    + rewrite <- (Hs line). now apply Hrest.
Qed.

End Measuring.

(** X10. [measureTextAccurately] is memoized soundly: asking again for the
    same text, font size and weight right after a call returns the same
    size and leaves the measurer as the first call left it. *)
Theorem measureTextAccurately_repeat (createElement : option Element)
    (text : string) (fontSize : nat) (fontWeight : string) (m : Measurer) :
  let first := measureTextAccurately createElement text fontSize fontWeight m in
  measureTextAccurately createElement text fontSize fontWeight (snd first) = first.
Proof.
  cbv zeta. unfold measureTextAccurately at 2 3; cbv zeta.
  destruct (textMeasurementCache m !! textMeasurementKey text fontSize fontWeight)
    eqn:Hc.
  - cbn [snd]. unfold measureTextAccurately; cbv zeta. now rewrite Hc.
  - destruct (textMeasurementElement (initializeTextMeasurementElement createElement m))
      as [element |] eqn:He; cbn [snd].
    + unfold measureTextAccurately; cbv zeta; cbn [textMeasurementCache].
      now rewrite lookup_insert_eq.
    + unfold measureTextAccurately; cbv zeta.
      rewrite (proj1 (initialize_caches createElement m)), Hc.
      now rewrite initialize_idempotent, He.
Qed.

(** X12. The text size returned by [measureTextSize] is at least as wide as
    every one of its lines, as [measureTextAccurately] measures them before
    the call and after it, and never narrower than 35. *)
Theorem measureTextSize_widest (createElement : option Element)
    (lines : list string) (fontSize : nat) (fontWeight : string) (m : Measurer)
    (line : string) :
  In line lines ->
  let result := measureTextSize createElement lines fontSize fontWeight m in
  size_width (fst (measureTextAccurately createElement line fontSize fontWeight m))
    <= size_width (fst result) /\
  size_width (fst (measureTextAccurately createElement line fontSize fontWeight (snd result)))
    <= size_width (fst result) /\
  35 <= size_width (fst result).
Proof.
  intros Hin; cbv zeta. unfold measureTextSize.
  destruct lines as [| l ls]; [contradiction |].
  cbn [length Nat.eqb].
  pose proof (measureLines_widest createElement (l :: ls) fontSize fontWeight 0 m)
    as [_ Hw].
  pose proof (measureLines_stable createElement line (l :: ls) fontSize fontWeight 0 m)
    as Hs.
  specialize (Hw line Hin).
  destruct (measureLines createElement (l :: ls) fontSize fontWeight 0 m) as [w m'].
  cbn [fst snd size_width] in *. rewrite Hs.
  assert (Qmax w 35 <= ceil (Qmax w 35)) as Hc by apply Qle_ceiling.
  pose proof (Q.le_max_l w 35). pose proof (Q.le_max_r w 35).
  repeat split; lra.
Qed.

Lemma measureTextSize_widest_witness :
  size_width (fst (measureTextAccurately None "a much longer second line" 15 "normal"
                     TextMeasurer.create))
  <= size_width (fst (measureTextSize None ["short"%string; "a much longer second line"%string]
                        15 "normal" TextMeasurer.create)).
Proof.
  apply (measureTextSize_widest None ["short"%string; "a much longer second line"%string]
           15 "normal" TextMeasurer.create "a much longer second line").
  right. now left.
Defined.

End MeasuringMore.

(** ** Further properties of the text measurer: node dimensions *)

Module DimensionsMore.
Import Js JsFacts StyleConstants TextMeasurer Notions MoreNotions CacheFacts.
Import TextMeasurerFacts WrapTextFacts.

Lemma measureTextSize_height createElement lines fontSize fontWeight m :
  lines <> [] ->
  size_height (fst (measureTextSize createElement lines fontSize fontWeight m))
  = ceil (inject_Z (Z.of_nat (length lines)) * (inject_Z (Z.of_nat fontSize) * 1.3)).
Proof.
  intros Hne. unfold measureTextSize.
  destruct lines as [| l ls]; [congruence |]. cbn [length Nat.eqb].
  destruct (measureLines createElement (l :: ls) fontSize fontWeight 0 m).
  reflexivity.
Qed.

Lemma wrapText_joined (text : string) (fontSize : Q) :
  join (String "010"%char EmptyString) (wrapText text None fontSize) = text /\
  Forall (fun line => includesChar "010"%char line = false) (wrapText text None fontSize).
Proof.
  unfold wrapText. destruct text as [| c s]; [now repeat constructor |].
  cbn [truthy negb String.length Nat.eqb orb].
  destruct (includesChar "010"%char (String c s)) eqn:Hnl.
  - split; [apply join_split | apply split_pieces_without_separator].
  - split; [reflexivity |]. constructor; [exact Hnl | constructor].
Qed.

Section Shape.
Variable cleanTextContent : string -> string.
Variable createElement : option Element.

(** What [getNodeDimensions] computes past the cache check, as a function of
    the depth, the cleaned text and a text size that is whole, at least 35
    wide and as high as its lines. *)
Lemma computeNodeDimensions_shape depth text m :
  let fs := inject_Z (Z.of_nat (fontSizeNumByDepth depth)) in
  let wrapped := wrapText (cleanTextContent text) None fs in
  exists textSize,
    isInteger (size_width textSize) /\
    35 <= size_width textSize /\
    size_height textSize = ceil (inject_Z (Z.of_nat (length wrapped)) * (fs * 1.3)) /\
    fst (computeNodeDimensions cleanTextContent createElement depth text m)
    = {| width :=
           Qmax (size_width textSize + paddingByDepth depth * 2
                 + Qmax 8 (size_width textSize * 0.05)) (minWidthByDepth depth);
         height :=
           Qmax (size_height textSize + paddingByDepth depth * 2) (fs * 2.0);
         textX :=
           Qmax (size_width textSize + paddingByDepth depth * 2
                 + Qmax 8 (size_width textSize * 0.05)) (minWidthByDepth depth) / 2;
         textY := size_height textSize / 2 + paddingByDepth depth / 2;
         fontSize := getFontSizeByDepth depth;
         fontWeight := fontWeightByDepth depth;
         lines := wrapped;
         padding := paddingByDepth depth;
         minWidth := minWidthByDepth depth;
         maxWidth := None |}.
Proof.
  cbv zeta. unfold computeNodeDimensions, fontSizeNumByDepth.
  destruct depth as [| [| depth]]; cbv beta iota zeta;
    match goal with
    | |- context [measureTextSize ?c ?l ?f ?w ?m] =>
        pose proof (measureTextSize_ceiled c l f w m
                      (wrapText_no_limit_nonempty _ _)) as Hsize;
        pose proof (measureTextSize_height c l f w m
                      (wrapText_no_limit_nonempty _ _)) as Hheight;
        cbv zeta in Hsize;
        destruct (measureTextSize c l f w m) as [size m'];
        cbn [fst] in Hsize, Hheight; destruct Hsize as (Hw & _ & H35);
        exists size; repeat split; assumption
    end.
Qed.

(** On a reachable measurer the result is of that shape, cached or not. *)
Lemma getNodeDimensions_shape depth text m :
  reachable cleanTextContent createElement m ->
  exists m0,
    fst (getNodeDimensions cleanTextContent createElement depth text m)
    = fst (computeNodeDimensions cleanTextContent createElement depth text m0).
Proof.
  intros Hr. apply getNodeDimensions_computed. now apply reachable_cacheSound.
Qed.

End Shape.

Lemma length_positive {A : Type} (l : list A) :
  l <> [] -> 1 <= inject_Z (Z.of_nat (length l)).
Proof.
  destruct l; [congruence |]. intros _. unfold Qle; cbn [Qnum Qden inject_Z length]. lia.
Qed.

(** X13. [getNodeDimensions] is memoized soundly: a second call with the
    same depth and text right after the first returns the same dimensions
    and leaves the measurer as the first call left it. *)
Theorem getNodeDimensions_repeat
    (cleanTextContent : string -> string) (createElement : option Element)
    (depth : nat) (text : string) (m : Measurer) :
  let first := getNodeDimensions cleanTextContent createElement depth text m in
  getNodeDimensions cleanTextContent createElement depth text (snd first) = first.
Proof.
  cbv zeta.
  pose proof (getNodeDimensions_stores cleanTextContent createElement depth text m) as Hs.
  destruct (getNodeDimensions cleanTextContent createElement depth text m) as [r m1].
  cbn [fst snd] in *. unfold getNodeDimensions. now rewrite Hs.
Qed.

(** X14. Neither floor of the final box ever binds.  The height is the
    rounded-up height of the lines plus twice the padding: it lies between
    [lineCount * 1.3 * fontSize + 2 * padding] and that plus 1, and is above
    twice the font size.  The width is at least [43 + 2 * padding], which is
    above the minimum width of the depth. *)
Theorem getNodeDimensions_floors_never_bind
    (cleanTextContent : string -> string) (createElement : option Element)
    (m : Measurer) (depth : nat) (text : string) :
  reachable cleanTextContent createElement m ->
  let r := fst (getNodeDimensions cleanTextContent createElement depth text m) in
  let fs := inject_Z (Z.of_nat (parseInt (getFontSizeByDepth depth))) in
  let lineCount := inject_Z (Z.of_nat (length (lines r))) in
  lineCount * (fs * 1.3) + 2 * padding r <= height r /\
  height r <= lineCount * (fs * 1.3) + 2 * padding r + 1 /\
  2 * fs < height r /\
  43 + 2 * padding r <= width r /\
  minWidth r < width r.
Proof.
  intros Hr; cbv zeta.
  destruct (getNodeDimensions_shape cleanTextContent createElement depth text m Hr)
    as [m0 ->].
  destruct (computeNodeDimensions_shape cleanTextContent createElement depth text m0)
    as (ts & Hw & H35 & Hh & ->).
  cbn [height width lines padding minWidth]. rewrite Hh.
  set (n := inject_Z (Z.of_nat (length _))).
  assert (1 <= n) as Hn by (apply length_positive, wrapText_no_limit_nonempty).
  unfold fontSizeNumByDepth.
  set (fs := inject_Z (Z.of_nat (parseInt (getFontSizeByDepth depth)))).
  pose proof (Qle_ceiling (n * (fs * 1.3))) as Hc. fold (ceil (n * (fs * 1.3))) in Hc.
  assert (ceil (n * (fs * 1.3)) <= n * (fs * 1.3) + 1) as Hc'.
  { pose proof (Qceiling_lt (n * (fs * 1.3))) as Hlt.
    unfold Z.sub in Hlt. rewrite inject_Z_plus, inject_Z_opp in Hlt.
    unfold ceil. change (inject_Z 1) with 1 in Hlt. lra. }
  set (th := ceil (n * (fs * 1.3))) in *.
  set (tw := size_width ts) in *.
  pose proof (Q.le_max_l (tw + paddingByDepth depth * 2 + Qmax 8 (tw * 0.05))
                (minWidthByDepth depth)) as Hwl.
  pose proof (Q.le_max_l 8 (tw * 0.05)) as H8.
  assert (fs * 2.0 < th + paddingByDepth depth * 2 /\
          minWidthByDepth depth < 43 + 2 * paddingByDepth depth) as [Hfloor Hmin].
  { destruct depth as [| [| depth]]; subst fs;
      cbn [getFontSizeByDepth paddingByDepth minWidthByDepth] in *;
      match goal with
      | H : context [inject_Z (Z.of_nat (parseInt ?s))] |- _ =>
          let v := eval vm_compute in (inject_Z (Z.of_nat (parseInt s))) in
          change (inject_Z (Z.of_nat (parseInt s))) with v in *
      end; split; lra. }
  assert (Qmax (th + paddingByDepth depth * 2) (fs * 2.0) == th + paddingByDepth depth * 2)
    as E by (apply Q.max_l; lra).
  rewrite E. repeat split; lra.
Qed.

Lemma getNodeDimensions_floors_never_bind_witness :
  let element : Element := fun _ _ _ => {| size_width := 36.5; size_height := 18 |} in
  let r := fst (getNodeDimensions MindmapUtils.cleanTextContent (Some element) 2 "topic"
                  TextMeasurer.create) in
  39.5 <= height r /\ height r <= 40.5 /\ 63 <= width r.
Proof.
  intros element.
  pose proof (getNodeDimensions_floors_never_bind MindmapUtils.cleanTextContent
                (Some element) TextMeasurer.create 2 "topic" (reachable_create _ _)) as H.
  cbv zeta in H. destruct H as (Hlo & Hhi & _ & Hw & _).
  cbv zeta. repeat split.
  - eapply Qle_trans; [| exact Hlo]. vm_compute. discriminate.
  - eapply Qle_trans; [exact Hhi |]. vm_compute. discriminate.
  - exact Hw.
Defined.

(** X15. The text anchor: [textX] is the horizontal middle of the box, and
    [textY] lies half a padding above its vertical middle. *)
Theorem getNodeDimensions_text_anchor
    (cleanTextContent : string -> string) (createElement : option Element)
    (m : Measurer) (depth : nat) (text : string) :
  reachable cleanTextContent createElement m ->
  let r := fst (getNodeDimensions cleanTextContent createElement depth text m) in
  textX r == width r / 2 /\
  textY r == height r / 2 - padding r / 2.
Proof.
  intros Hr; cbv zeta.
  destruct (getNodeDimensions_shape cleanTextContent createElement depth text m Hr)
    as [m0 ->].
  destruct (computeNodeDimensions_shape cleanTextContent createElement depth text m0)
    as (ts & Hw & H35 & Hh & ->).
  cbn [height width textX textY padding]. split; [reflexivity |].
  rewrite Hh.
  set (n := inject_Z (Z.of_nat (length _))).
  assert (1 <= n) as Hn by (apply length_positive, wrapText_no_limit_nonempty).
  unfold fontSizeNumByDepth.
  set (fs := inject_Z (Z.of_nat (parseInt (getFontSizeByDepth depth)))).
  pose proof (Qle_ceiling (n * (fs * 1.3))) as Hc. fold (ceil (n * (fs * 1.3))) in Hc.
  set (th := ceil (n * (fs * 1.3))) in *.
  assert (fs * 2.0 <= th + paddingByDepth depth * 2) as Hfloor.
  { destruct depth as [| [| depth]]; subst fs;
      cbn [getFontSizeByDepth paddingByDepth] in *;
      match goal with
      | H : context [inject_Z (Z.of_nat (parseInt ?s))] |- _ =>
          let v := eval vm_compute in (inject_Z (Z.of_nat (parseInt s))) in
          change (inject_Z (Z.of_nat (parseInt s))) with v in *
      end; lra. }
  rewrite (Q.max_l _ _ Hfloor). field.
Qed.

Lemma getNodeDimensions_text_anchor_witness :
  let r := fst (getNodeDimensions MindmapUtils.cleanTextContent None 0 "Central Topic"
                  TextMeasurer.create) in
  textX r == width r / 2 /\ textY r == height r / 2 - padding r / 2.
Proof.
  apply (getNodeDimensions_text_anchor MindmapUtils.cleanTextContent None
           TextMeasurer.create 0 "Central Topic").
  apply reachable_create.
Defined.

(** X16. The lines of a node are the cleaned text cut at its line breaks:
    there is at least one line, no line holds a line break, and joining the
    lines with line breaks gives the cleaned text back. *)
Theorem getNodeDimensions_lines
    (cleanTextContent : string -> string) (createElement : option Element)
    (m : Measurer) (depth : nat) (text : string) :
  reachable cleanTextContent createElement m ->
  let r := fst (getNodeDimensions cleanTextContent createElement depth text m) in
  lines r <> [] /\
  Forall (fun line => includesChar "010"%char line = false) (lines r) /\
  join (String "010"%char EmptyString) (lines r) = cleanTextContent text.
Proof.
  intros Hr; cbv zeta.
  destruct (getNodeDimensions_shape cleanTextContent createElement depth text m Hr)
    as [m0 ->].
  rewrite computeNodeDimensions_lines.
  split; [apply wrapText_no_limit_nonempty |].
  destruct (wrapText_joined (cleanTextContent text)
              (inject_Z (Z.of_nat (parseInt (getFontSizeByDepth depth))))) as [Hj Hf].
  now split.
Qed.

Lemma getNodeDimensions_lines_witness :
  join (String "010"%char EmptyString)
    (lines (fst (getNodeDimensions MindmapUtils.cleanTextContent None 1
                   (String "a" (String "010" (String "b" EmptyString)))
                   TextMeasurer.create)))
  = String "a" (String "010" (String "b" EmptyString)).
Proof.
  pose proof (getNodeDimensions_lines MindmapUtils.cleanTextContent None
                TextMeasurer.create 1
                (String "a" (String "010" (String "b" EmptyString)))
                (reachable_create _ _)) as H.
  cbv zeta in H. destruct H as (_ & _ & H). exact H.
Defined.

(** X17. A result is never taken from an entry stored for another request.
    What [getNodeDimensions] returns, cached or not, is what the computation
    past the cache check gives for this depth and text at some state of the
    measurer, and a call for another depth or another text leaves the cache
    entry of this depth and text as it was.  So the style fields are those
    of the requested depth: font size by depth, bold for depths 0 and 1 and
    normal below, padding 18, 16 or 10, no maximum width. *)
Theorem getNodeDimensions_style
    (cleanTextContent : string -> string) (createElement : option Element)
    (m : Measurer) (depth : nat) (text : string) :
  reachable cleanTextContent createElement m ->
  let r := fst (getNodeDimensions cleanTextContent createElement depth text m) in
  (exists m0, r = fst (computeNodeDimensions cleanTextContent createElement depth text m0)) /\
  (forall depth' text',
      (depth', text') <> (depth, text) ->
      nodeDimensionsCache
        (snd (getNodeDimensions cleanTextContent createElement depth' text' m))
        !! nodeDimensionsKey depth text
      = nodeDimensionsCache m !! nodeDimensionsKey depth text) /\
  fontSize r = getFontSizeByDepth depth /\
  fontWeight r = match depth with 0%nat | 1%nat => "bold"%string | _ => "normal"%string end /\
  padding r = match depth with 0%nat => 18 | 1%nat => 16 | _ => 10 end /\
  maxWidth r = None.
Proof.
  intros Hr; cbv zeta.
  split; [now apply getNodeDimensions_shape |]. split.
  - intros depth' text' Hne. unfold getNodeDimensions.
    destruct (nodeDimensionsCache m !! nodeDimensionsKey depth' text'); [reflexivity |].
    pose proof (computeNodeDimensions_dims cleanTextContent createElement depth' text' m)
      as Hd.
    destruct (computeNodeDimensions cleanTextContent createElement depth' text' m)
      as [r' m'].
    cbn [snd nodeDimensionsCache] in *.
    rewrite lookup_insert_ne; [now rewrite Hd |].
    intros Hk. apply nodeDimensionsKey_inj in Hk as [-> ->]. now apply Hne.
  - destruct (getNodeDimensions_shape cleanTextContent createElement depth text m Hr)
      as [m0 ->].
    destruct (computeNodeDimensions_shape cleanTextContent createElement depth text m0)
      as (ts & _ & _ & _ & ->).
    now repeat split.
Qed.

Lemma getNodeDimensions_style_witness :
  let element : Element := fun _ _ _ => {| size_width := 20; size_height := 18 |} in
  let m1 := snd (getNodeDimensions MindmapUtils.cleanTextContent (Some element) 0 "1-a"
                   TextMeasurer.create) in
  padding (fst (getNodeDimensions MindmapUtils.cleanTextContent (Some element) 1 "a-3-0" m1))
  = 16 /\
  nodeDimensionsCache
    (snd (getNodeDimensions MindmapUtils.cleanTextContent (Some element) 0 "1-a" m1))
    !! nodeDimensionsKey 1 "a-3-0"
  = nodeDimensionsCache m1 !! nodeDimensionsKey 1 "a-3-0".
Proof.
  intros element. cbv zeta.
  pose proof (getNodeDimensions_style MindmapUtils.cleanTextContent (Some element)
                (snd (getNodeDimensions MindmapUtils.cleanTextContent (Some element) 0 "1-a"
                        TextMeasurer.create))
                1 "a-3-0" (reachable_getNodeDimensions _ _ _ _ _ (reachable_create _ _)))
    as H.
  cbv zeta in H. destruct H as (_ & Hkeep & _ & _ & Hpad & _).
  split; [exact Hpad |].
  apply (Hkeep 0%nat "1-a"%string). discriminate.
Defined.

End DimensionsMore.

(** ** Further properties of the text measurer: the caches *)

Module CacheMore.
Import Js JsFacts TextMeasurer TextMeasurerErrors Notions MoreNotions CacheFacts.

Lemma deleteKeysIncluding_idempotent {V : Type} (text : string) (cache : gmap string V) :
  deleteKeysIncluding text (deleteKeysIncluding text cache)
  = deleteKeysIncluding text cache.
Proof.
  apply map_eq; intros key. rewrite !lookup_deleteKeysIncluding.
  now destruct (includes text key).
Qed.

Lemma deleteKeysIncluding_commute {V : Type} (t1 t2 : string) (cache : gmap string V) :
  deleteKeysIncluding t1 (deleteKeysIncluding t2 cache)
  = deleteKeysIncluding t2 (deleteKeysIncluding t1 cache).
Proof.
  apply map_eq; intros key. rewrite !lookup_deleteKeysIncluding.
  now destruct (includes t1 key), (includes t2 key).
Qed.

Lemma deleteKeysIncluding_subseteq {V : Type} (text : string) (cache : gmap string V) :
  deleteKeysIncluding text cache ⊆ cache.
Proof.
  apply map_subseteq_spec; intros key v. rewrite lookup_deleteKeysIncluding.
  now destruct (includes text key).
Qed.

(** X18. Invalidation only ever removes entries, leaves the measuring
    element alone, and is idempotent and order-independent: invalidating the
    same text twice, or two texts in either order, gives the same
    measurer. *)
Theorem clearNodeDimensionsCacheForText_algebra (m : Measurer) (t1 t2 : string) :
  nodeDimensionsCache (clearNodeDimensionsCacheForText t1 m) ⊆ nodeDimensionsCache m /\
  textMeasurementCache (clearNodeDimensionsCacheForText t1 m) ⊆ textMeasurementCache m /\
  textMeasurementElement (clearNodeDimensionsCacheForText t1 m) = textMeasurementElement m /\
  clearNodeDimensionsCacheForText t1 (clearNodeDimensionsCacheForText t1 m)
    = clearNodeDimensionsCacheForText t1 m /\
  clearNodeDimensionsCacheForText t1 (clearNodeDimensionsCacheForText t2 m)
    = clearNodeDimensionsCacheForText t2 (clearNodeDimensionsCacheForText t1 m).
Proof.
  unfold clearNodeDimensionsCacheForText;
    cbn [nodeDimensionsCache textMeasurementCache textMeasurementElement].
  repeat split; try apply deleteKeysIncluding_subseteq.
  - now rewrite !deleteKeysIncluding_idempotent.
  - now rewrite (deleteKeysIncluding_commute t1 t2 (textMeasurementCache m)),
      (deleteKeysIncluding_commute t1 t2 (nodeDimensionsCache m)).
Qed.

(** X19. Invalidating a text also drops its own text measurement, for every
    font size and weight: the measurement key starts with the text. *)
Theorem clearNodeDimensionsCacheForText_measurement (m : Measurer) (text : string)
    (fontSize : nat) (fontWeight : string) :
  textMeasurementCache (clearNodeDimensionsCacheForText text m)
    !! textMeasurementKey text fontSize fontWeight = None.
Proof.
  unfold clearNodeDimensionsCacheForText; cbn [textMeasurementCache].
  rewrite lookup_deleteKeysIncluding.
  unfold textMeasurementKey.
  now rewrite (includes_prefix _ _ (prefix_app text _)).
Qed.

(** X20. For font weights without a dash (the measurer only uses ["bold"]
    and ["normal"]), the text measurement key determines the text, the font
    size and the weight: two different measurements never share a cache
    entry. *)
Theorem textMeasurementKey_injective (text text' : string) (fontSize fontSize' : nat)
    (fontWeight fontWeight' : string) :
  includesChar "-"%char fontWeight = false ->
  includesChar "-"%char fontWeight' = false ->
  textMeasurementKey text fontSize fontWeight
    = textMeasurementKey text' fontSize' fontWeight' ->
  text = text' /\ fontSize = fontSize' /\ fontWeight = fontWeight'.
Proof.
  unfold textMeasurementKey. intros Hw Hw' H.
  assert (forall (t : string) (n : nat) (w : string),
            t +:+ "-" +:+ numberToString n +:+ "-" +:+ w
            = (t +:+ "-" +:+ numberToString n) +:+ "-" +:+ w) as Hassoc.
  { intros t n w. now rewrite !append_assoc. }
  rewrite !Hassoc in H.
  apply last_dash_split in H as [H ->]; [| exact Hw | exact Hw'].
  apply last_dash_split in H as [-> Hn]; try apply numberToString_no_dash.
  apply numberToString_inj in Hn as ->. now repeat split.
Qed.

Lemma textMeasurementKey_injective_witness :
  "a-15"%string = "a-15"%string /\ 15%nat = 15%nat /\ "bold"%string = "bold"%string.
Proof.
  apply (textMeasurementKey_injective "a-15" "a-15" 15 15 "bold" "bold");
    reflexivity.
Defined.

(** X11. [measureTextAccurately] never answers the estimate written after
    its [if]: a call that does not raise either returns the cached size and
    leaves the measurer as it was, or returns what the measuring element
    reports (the element at hand, or the one just created) and stores it in
    the cache.  A call raises exactly when the text is not cached, the
    measurer has no element and the document hands none. *)
Theorem measureTextAccurately_never_estimates (createElement : option Element)
    (m : Measurer) (text : string) (fontSize : nat) (fontWeight : string) :
  let key := textMeasurementKey text fontSize fontWeight in
  let call := measureTextAccurately createElement text fontSize fontWeight m in
  (measureTextAccuratelyRaises createElement text fontSize fontWeight m = true <->
   textMeasurementCache m !! key = None /\
   textMeasurementElement m = None /\ createElement = None) /\
  (measureTextAccuratelyRaises createElement text fontSize fontWeight m = false ->
   (exists cached, textMeasurementCache m !! key = Some cached /\ call = (cached, m)) \/
   (exists element,
       textMeasurementCache m !! key = None /\
       textMeasurementElement (snd call) = Some element /\
       (textMeasurementElement m = Some element \/
        textMeasurementElement m = None /\ createElement = Some element) /\
       fst call = {| size_width := size_width (element text fontSize fontWeight);
                     size_height := size_height (element text fontSize fontWeight) |} /\
       textMeasurementCache (snd call) !! key = Some (fst call))).
Proof.
  cbv zeta.
  unfold measureTextAccuratelyRaises, initializeRaises, measureTextAccurately,
    initializeTextMeasurementElement; cbv zeta.
  destruct (textMeasurementCache m !! textMeasurementKey text fontSize fontWeight)
    as [cached |] eqn:Hc.
  - split; [split; [discriminate | intros [H _]; discriminate] |].
    intros _. left. now exists cached.
  - destruct (textMeasurementElement m) as [element |] eqn:He.
    + rewrite He.
      split; [split; [discriminate | intros (_ & H & _); discriminate] |].
      intros _. right. exists element.
      cbn [fst snd textMeasurementElement textMeasurementCache].
      rewrite lookup_insert_eq. repeat split; auto.
    + destruct createElement as [element |];
        cbn [textMeasurementElement textMeasurementCache].
      * split; [split; [discriminate | intros (_ & _ & H); discriminate] |].
        intros _. right. exists element.
        cbn [fst snd textMeasurementElement textMeasurementCache].
        rewrite lookup_insert_eq. repeat split; auto.
      * split; [split; [now intros _ | reflexivity] | discriminate].
Qed.

Lemma measureTextAccurately_never_estimates_witness :
  let element : Element := fun _ _ _ => {| size_width := 31; size_height := 12 |} in
  size_width (fst (measureTextAccurately (Some element) "abcde" 10 "normal"
                     TextMeasurer.create)) == 31.
Proof.
  intros element.
  pose proof (measureTextAccurately_never_estimates (Some element) TextMeasurer.create
                "abcde" 10 "normal") as [_ H].
  destruct (H eq_refl) as [(cached & Hc & _) | (e & _ & _ & [He | [_ He]] & Hr & _)].
  - unfold TextMeasurer.create in Hc; cbn [textMeasurementCache] in Hc.
    rewrite lookup_empty in Hc. discriminate.
  - discriminate.
  - rewrite Hr. injection He as <-. reflexivity.
Defined.

End CacheMore.

(** ** Numeric font sizes *)

Module FontSizeFacts.
Import Js JsFacts JsStrings StyleConstants FontSizeManager.

Lemma parseIntDigits_digit (c : ascii) (d acc : nat) (s : string) :
  digitValue c = Some d ->
  parseIntDigits acc (String c s) = parseIntDigits (10 * acc + d) s.
Proof. intros H. cbn [parseIntDigits]. now rewrite H. Qed.

Lemma parseIntDigits_decimal (d : Decimal.uint) :
  forall (acc : nat) (rest : string),
    parseIntDigits acc (NilEmpty.string_of_uint d +:+ rest)
    = parseIntDigits (Nat.of_uint_acc d acc) rest.
Proof.
  induction d; intros acc rest; cbn [NilEmpty.string_of_uint String.append Nat.of_uint_acc];
    [reflexivity | ..];
    match goal with
    | |- parseIntDigits _ (String ?c _) = _ =>
        let v := eval vm_compute in (digitValue c) in
        match v with
        | Some ?k => rewrite (parseIntDigits_digit c k) by reflexivity
        end
    end;
    rewrite IHd, Nat.tail_mul_spec;
    do 2 f_equal; lia.
Qed.

Lemma replace_px_decimal (d : Decimal.uint) :
  replace "px" "" (NilEmpty.string_of_uint d +:+ "px") = NilEmpty.string_of_uint d.
Proof. induction d; cbn; [reflexivity | ..]; now rewrite IHd. Qed.

Lemma digitsThenPx_decimal (d : Decimal.uint) :
  digitsThenPx true (NilEmpty.string_of_uint d +:+ "px") = true.
Proof. induction d; cbn; [reflexivity | ..]; exact IHd. Qed.

Lemma append_assoc_empty (a : string) : a +:+ EmptyString = a.
Proof. induction a as [| x a IH]; simpl; [reflexivity | now rewrite IH]. Qed.

Lemma little_succ_not_nil (d : Decimal.uint) : Decimal.Little.succ d <> Decimal.Nil.
Proof. destruct d; discriminate. Qed.

Lemma to_little_uint_not_nil (n : nat) :
  forall d, d <> Decimal.Nil -> Nat.to_little_uint n d <> Decimal.Nil.
Proof.
  induction n as [| n IH]; intros d Hd; cbn [Nat.to_little_uint]; [exact Hd |].
  apply IH, little_succ_not_nil.
Qed.

Lemma to_uint_not_nil (n : nat) : Nat.to_uint n <> Decimal.Nil.
Proof.
  unfold Nat.to_uint. intros H. apply DecimalFacts.rev_nil_inv in H.
  revert H. now apply to_little_uint_not_nil.
Qed.

(** X21. The numeric font size by depth is the number the text measurer
    parses from the font size string of that depth; it never grows with the
    depth, every font size by depth passes [isValidFontSize], and the
    constants pass [validateFontSizeConsistency]. *)
Theorem numeric_font_size_by_depth (depth : nat) :
  getNumericFontSizeByDepth depth = parseInt (getFontSizeByDepth depth) /\
  getNumericFontSize depth = fontSizeToNumber (getFontSize depth) /\
  isValidFontSize (getFontSize depth) = true /\
  (forall deeper : nat,
      (depth <= deeper)%nat ->
      (getNumericFontSize deeper <= getNumericFontSize depth)%nat) /\
  validateFontSizeConsistency = true.
Proof.
  repeat split; try (destruct depth as [| [| depth]]; reflexivity).
  intros deeper Hle.
  destruct depth as [| [| depth]], deeper as [| [| deeper]];
    try lia; vm_compute; lia.
Qed.

(** X22. Font size strings round-trip: for every whole number [n] below
    2^53, where JavaScript writes a number with all its decimal digits and
    reads it back exactly, the string [`${n}px`] passes [isValidFontSize],
    and [fontSizeToNumber] gives [n] back. *)
Theorem fontSizeToNumber_roundtrip (n : nat) :
  (Z.of_nat n < 2 ^ 53)%Z ->
  isValidFontSize (numberToString n +:+ "px") = true /\
  fontSizeToNumber (numberToString n +:+ "px") = n.
Proof.
  intros _.
  unfold isValidFontSize, fontSizeToNumber, numberToString. split.
  - pose proof (to_uint_not_nil n) as Hne.
    destruct (Nat.to_uint n) as [| d | d | d | d | d | d | d | d | d | d];
      [congruence | ..]; cbn; apply digitsThenPx_decimal.
  - rewrite replace_px_decimal. unfold parseInt.
    rewrite <- (append_assoc_empty (NilEmpty.string_of_uint (Nat.to_uint n))).
    rewrite parseIntDigits_decimal. cbn [parseIntDigits].
    apply Unsigned.of_to.
Qed.

Lemma fontSizeToNumber_roundtrip_witness :
  isValidFontSize "16px" = true /\ fontSizeToNumber "16px" = 16%nat.
Proof. apply (fontSizeToNumber_roundtrip 16). reflexivity. Defined.

End FontSizeFacts.

(** ** Link connection points and rounded paths *)

Module LinkRendererFacts.
Import Js JsStrings CoordinateConverter TextMeasurer Notions MoreNotions.
Import LinkRenderer.

(** A node box is never narrower than 63. *)
Lemma getNodeDimensions_width_min cleanTextContent createElement m d t :
  reachable cleanTextContent createElement m ->
  63 <= width (fst (getNodeDimensions cleanTextContent createElement d t m)).
Proof.
  intros Hr.
  destruct (DimensionsMore.getNodeDimensions_shape cleanTextContent createElement d t m Hr)
    as [m0 ->].
  destruct (DimensionsMore.computeNodeDimensions_shape
              cleanTextContent createElement d t m0) as (ts & _ & H35 & _ & ->).
  cbn [width].
  match goal with
  | |- _ <= Qmax ?a ?b => pose proof (Q.le_max_l a b) as Hl
  end.
  pose proof (Q.le_max_l 8 (size_width ts * 0.05)) as H8.
  destruct d as [| [| d]]; cbn [paddingByDepth] in *; lra.
Qed.

(** X23. With a line offset between 0 and 16 (the default is 6), a link
    starts inside the box of its source, at most 24 left of the right edge,
    and ends inside the left padding of its target, at most 24 right of the
    left edge; both ends sit at the height of the node centers. *)
Theorem getLinkConnectionPoints_inside
    (cleanTextContent : string -> string) (createElement : option Element)
    (config : LinkRendererConfig) (link : HierarchyLink) (offsetX offsetY : Q)
    (m : Measurer) :
  reachable cleanTextContent createElement m ->
  0 <= lineOffset config -> lineOffset config <= 16 ->
  let points :=
    fst (getLinkConnectionPoints cleanTextContent createElement config link
           offsetX offsetY m) in
  let sourceWidth :=
    width (fst (getNodeDimensions cleanTextContent createElement
                  (depth (source link)) (text (source link)) m)) in
  let sourceLeft := toCanvasX (y (source link)) offsetX in
  let targetLeft := toCanvasX (y (target link)) offsetX in
  sourceLeft <= sourceX points /\
  sourceLeft + sourceWidth - 24 <= sourceX points /\
  sourceX points <= sourceLeft + sourceWidth /\
  targetLeft <= targetX points /\
  targetX points <= targetLeft + 24 /\
  sourceY points == x (source link) + offsetY /\
  targetY points == x (target link) + offsetY.
Proof.
  intros Hr Hlo Hhi; cbv zeta.
  pose proof (getNodeDimensions_width_min cleanTextContent createElement m
                (depth (source link)) (text (source link)) Hr) as Hw.
  unfold getLinkConnectionPoints.
  destruct (getNodeDimensions cleanTextContent createElement
              (depth (source link)) (text (source link)) m) as [dims m'].
  cbn [fst sourceX sourceY targetX targetY] in *.
  unfold toRightEdge, toLeftEdge, toCanvasY, toCanvasX.
  assert (16 <= getNodePadding (depth (source link)) <= 24) as [Hs1 Hs2]
    by (unfold getNodePadding; destruct (depth (source link)) as [| [| ?]]; split; lra).
  assert (16 <= getNodePadding (depth (target link)) <= 24) as [Ht1 Ht2]
    by (unfold getNodePadding; destruct (depth (target link)) as [| [| ?]]; split; lra).
  assert (0 / 2 == 0) as E0 by reflexivity.
  repeat split; try lra; rewrite E0; ring.
Qed.

Lemma getLinkConnectionPoints_inside_witness :
  let link := {| source := {| depth := 0; text := "Root"; x := 100; y := 0 |};
                 target := {| depth := 1; text := "Child"; x := 160; y := 200 |} |} in
  let points :=
    fst (getLinkConnectionPoints MindmapUtils.cleanTextContent None
           (LinkRenderer.create None) link 0 0 TextMeasurer.create) in
  200 <= targetX points /\ targetX points <= 224.
Proof.
  intros link points.
  pose proof (getLinkConnectionPoints_inside MindmapUtils.cleanTextContent None
                (LinkRenderer.create None) link 0 0 TextMeasurer.create
                (reachable_create _ _)) as H.
  cbv zeta in H.
  destruct H as (_ & _ & _ & H1 & H2 & _); [discriminate | discriminate |].
  split; [exact H1 | exact H2].
Defined.

Lemma Qabs_cases (q : Q) :
  0 <= Qabs q /\ (0 <= q -> Qabs q == q) /\ (q <= 0 -> Qabs q == - q).
Proof.
  split; [apply Qabs_nonneg |]. split; [apply Qabs_pos | apply Qabs_neg].
Qed.

Lemma min3_bounds (a b c : Q) :
  min3 a b c <= a /\ min3 a b c <= b /\ min3 a b c <= c /\
  (0 <= a -> 0 <= b -> 0 <= c -> 0 <= min3 a b c).
Proof.
  unfold min3.
  pose proof (Q.le_min_l (Qmin a b) c). pose proof (Q.le_min_r (Qmin a b) c).
  pose proof (Q.le_min_l a b). pose proof (Q.le_min_r a b).
  repeat split; try lra.
  intros Ha Hb Hc. apply Q.min_glb; [apply Q.min_glb |]; assumption.
Qed.

(** X24. A rounded path stays between its end points.  For a corner radius
    that is not negative, the radius used lies between 0 and the one asked
    for, the turn is between the source and target abscissas, the corner
    starts between the source and target ordinates on the turn, and it ends
    between the turn and the target at the target ordinate. *)
Theorem generateRoundedPath_within (sourceX sourceY targetX targetY cornerRadius : Q) :
  0 <= cornerRadius ->
  let path := generateRoundedPath sourceX sourceY targetX targetY cornerRadius in
  0 <= radius path /\ radius path <= cornerRadius /\
  between sourceX (turn1X path) targetX /\
  cornerStartX path = turn1X path /\
  between sourceY (cornerStartY path) targetY /\
  between (turn1X path) (cornerEndX path) targetX /\
  cornerEndY path = targetY.
Proof.
  intros Hcr; cbv zeta. unfold generateRoundedPath; cbv zeta.
  cbn [radius turn1X cornerStartX cornerStartY cornerEndX cornerEndY].
  set (turn := sourceX + (targetX - sourceX) * 0.45).
  set (ax := Qabs (targetX - turn)).
  set (ay := Qabs (targetY - sourceY)).
  destruct (Qabs_cases (targetX - turn)) as (Hax0 & Haxp & Haxn). fold ax in Hax0, Haxp, Haxn.
  destruct (Qabs_cases (targetY - sourceY)) as (Hay0 & Hayp & Hayn).
  fold ay in Hay0, Hayp, Hayn.
  destruct (min3_bounds cornerRadius (ax * 0.4) (ay * 0.4)) as (Hr1 & Hr2 & Hr3 & Hr0).
  assert (0 <= min3 cornerRadius (ax * 0.4) (ay * 0.4)) as Hr by (apply Hr0; lra).
  set (r := min3 cornerRadius (ax * 0.4) (ay * 0.4)) in *.
  assert (turn == sourceX + (targetX - sourceX) * 0.45) as Eturn by reflexivity.
  clearbody turn r ax ay.
  repeat split; try assumption.
  - unfold between.
    destruct (Qlt_le_dec targetX sourceX); [right | left]; split; lra.
  - unfold between.
    destruct (Qle_bool targetY sourceY) eqn:Hb; cbn [negb].
    + apply Qle_bool_iff in Hb. right. specialize (Hayn ltac:(lra)). split; lra.
    + assert (sourceY < targetY) as Hlt.
      { apply Qnot_le_lt. intros Hle. apply Qle_bool_iff in Hle. congruence. }
      left. specialize (Hayp ltac:(lra)). split; lra.
  - unfold between.
    destruct (Qle_bool targetX turn) eqn:Hb; cbn [negb].
    + apply Qle_bool_iff in Hb. right. specialize (Haxn ltac:(lra)). split; lra.
    + assert (turn < targetX) as Hlt.
      { apply Qnot_le_lt. intros Hle. apply Qle_bool_iff in Hle. congruence. }
      left. specialize (Haxp ltac:(lra)). split; lra.
Qed.

Lemma generateRoundedPath_within_witness :
  let path := generateRoundedPath 0 0 100 50 8 in
  0 <= radius path /\ radius path <= 8.
Proof.
  intros path.
  pose proof (generateRoundedPath_within 0 0 100 50 8) as H.
  cbv zeta in H. destruct H as (H1 & H2 & _); [discriminate |].
  split; [exact H1 | exact H2].
Defined.

End LinkRendererFacts.
